(** * Fish (half-suit) multiplayer backend: the GameHandler of the worker

    A shallow embedding of the [GameHandler] class of the Cloudflare worker
    (createGame, joinGame, assignTeams, startGame, askForCard, makeClaim,
    endGame, getPlayerView and the message dispatcher), followed by the
    properties of the game engine that were checked against it.  The class
    is given in full in the backend file; [worker.js] repeats its
    dispatcher and helpers and differs in one point only: its [catch]
    clause logs the error and sends nothing.

    Conventions of the embedding.
    - [global.games] is a finite map from game codes to sessions.  The
      in-memory store hands out the stored object itself, so every mutation
      a handler performs is visible in the store whether or not
      [storeGameState] is reached afterwards; the model therefore writes
      the session back at every mutation point, also on the paths that
      return or throw before [storeGameState].
    - JavaScript objects used as dictionaries ([global.games], [hands],
      the half-suit table) are maps over their own keys.  Reading a key
      the object does not own falls through to [Object.prototype]; the
      table [objectPrototype] lists what is found there, and the reads of
      the handlers are modelled with it ([getGameState], [suitCardsLength],
      [readHand]).  [assignments] is the list of its entries in the order
      of [Object.entries].
    - Writing [hands["__proto__"]] (the deal, for a player of that name)
      replaces the prototype of [hands] by the dealt array instead of
      creating an own key.  The map is exact for that key itself, which
      reads back what was written; but from then on a read of any other
      missing key finds the members of the array, which is not modelled:
      with a player of that name the model is exact for the reads of own
      keys only.
    - The fields of a parsed message have the types the handlers expect:
      strings, a boolean, arrays of card strings.
    - A message sent is recorded as the object that is handed to
      [JSON.stringify], not as the text it produces.
    - Every source of randomness ([Math.random], [Date.now]) is an explicit
      argument, collected in the record [Chance].
    - A run-time [TypeError] is the completion [Threw]; the mutations made
      before it stay. *)

From stdpp Require Import gmap gmultiset strings list fin_maps.
From Stdlib Require Import ZArith.

(** ** Data model *)

(** A card is its identifier string, rank followed by the suit symbol. *)
Abbreviation Card := string (only parsing).

(** The shape [{ team1: [...], team2: [...] }], used both for [teams]
    (player names) and for [claimedSuits] (half-suit names). *)
Record Teams := { team1 : list string; team2 : list string }.

(** The two property names ['team1'] and ['team2']. *)
Inductive TeamId := Team1 | Team2.

#[global] Instance TeamId_eq_dec : EqDecision TeamId.
Proof. solve_decision. Defined.

Definition teamKey (t : TeamId) : string :=
  match t with Team1 => "team1" | Team2 => "team2" end.

Definition getTeam (t : TeamId) (ts : Teams) : list string :=
  match t with Team1 => team1 ts | Team2 => team2 ts end.

(** [ts[t].push(x)] *)
Definition pushTeam (t : TeamId) (x : string) (ts : Teams) : Teams :=
  match t with
  | Team1 => {| team1 := team1 ts ++ [x]; team2 := team2 ts |}
  | Team2 => {| team1 := team1 ts; team2 := team2 ts ++ [x] |}
  end.

Record GameSession := {
  code : string;
  players : list string;
  teams : Teams;
  hands : gmap string (list Card);
  currentTurn : Z;
  claimedSuits : Teams;
  host : string;
  started : bool;
  created : Z
}.

Definition set_players (ps : list string) (g : GameSession) : GameSession :=
  {| code := code g; players := ps; teams := teams g; hands := hands g;
     currentTurn := currentTurn g; claimedSuits := claimedSuits g;
     host := host g; started := started g; created := created g |}.

Definition set_teams (ts : Teams) (g : GameSession) : GameSession :=
  {| code := code g; players := players g; teams := ts; hands := hands g;
     currentTurn := currentTurn g; claimedSuits := claimedSuits g;
     host := host g; started := started g; created := created g |}.

Definition set_hands (h : gmap string (list Card)) (g : GameSession) : GameSession :=
  {| code := code g; players := players g; teams := teams g; hands := h;
     currentTurn := currentTurn g; claimedSuits := claimedSuits g;
     host := host g; started := started g; created := created g |}.

Definition set_currentTurn (t : Z) (g : GameSession) : GameSession :=
  {| code := code g; players := players g; teams := teams g; hands := hands g;
     currentTurn := t; claimedSuits := claimedSuits g;
     host := host g; started := started g; created := created g |}.

Definition set_claimedSuits (cs : Teams) (g : GameSession) : GameSession :=
  {| code := code g; players := players g; teams := teams g; hands := hands g;
     currentTurn := currentTurn g; claimedSuits := cs;
     host := host g; started := started g; created := created g |}.

Definition set_started (b : bool) (g : GameSession) : GameSession :=
  {| code := code g; players := players g; teams := teams g; hands := hands g;
     currentTurn := currentTurn g; claimedSuits := claimedSuits g;
     host := host g; started := b; created := created g |}.

(** ** Deck model: [getHalfSuits] and [createDeck] *)

Definition getHalfSuits : list (string * list Card) :=
  [ ("low-hearts",    ["2♥"; "3♥"; "4♥"; "5♥"; "6♥"; "7♥"]);
    ("high-hearts",   ["9♥"; "10♥"; "J♥"; "Q♥"; "K♥"; "A♥"]);
    ("low-diamonds",  ["2♦"; "3♦"; "4♦"; "5♦"; "6♦"; "7♦"]);
    ("high-diamonds", ["9♦"; "10♦"; "J♦"; "Q♦"; "K♦"; "A♦"]);
    ("low-clubs",     ["2♣"; "3♣"; "4♣"; "5♣"; "6♣"; "7♣"]);
    ("high-clubs",    ["9♣"; "10♣"; "J♣"; "Q♣"; "K♣"; "A♣"]);
    ("low-spades",    ["2♠"; "3♠"; "4♠"; "5♠"; "6♠"; "7♠"]);
    ("high-spades",   ["9♠"; "10♠"; "J♠"; "Q♠"; "K♠"; "A♠"]) ].

(** The own keys of the table: the cards of a half-suit, [None] when [suit]
    is not one of the eight names. *)
Fixpoint lookupSuit (suit : string) (table : list (string * list Card))
  : option (list Card) :=
  match table with
  | [] => None
  | (name, cards) :: rest =>
      if decide (name = suit) then Some cards else lookupSuit suit rest
  end.

Definition halfSuit (suit : string) : option (list Card) :=
  lookupSuit suit getHalfSuits.

(** [Object.values(halfSuits).forEach(suit => deck.push(...suit))] *)
Definition createDeck : list Card := concat (map snd getHalfSuits).

(** ** JavaScript array helpers *)

(** [l.includes(x)] *)
Definition includes (x : string) (l : list string) : bool := bool_decide (x ∈ l).

(** [l.indexOf(x)], [-1] when absent. *)
Fixpoint indexOf (x : string) (l : list string) : Z :=
  match l with
  | [] => (-1)%Z
  | y :: l' =>
      if decide (y = x) then 0%Z
      else let r := indexOf x l' in if (r <? 0)%Z then (-1)%Z else (r + 1)%Z
  end.

(** [l[i]] for an integer index, [None] for [undefined]. *)
Definition at_index (l : list string) (i : Z) : option string :=
  if (i <? 0)%Z then None else l !! Z.to_nat i.

(** A value used as a property key or inside a template string:
    [undefined] becomes the text ["undefined"]. *)
Definition keyOf (o : option string) : string := default "undefined" o.

(** [deck.slice(a, b)] for [0 <= a <= b]. *)
Definition slice (deck : list Card) (a b : nat) : list Card :=
  take (b - a) (drop a deck).

(** [l.filter((_, i) => i % 2 === r)], positions counted from [i]. *)
Fixpoint filterParity (r : nat) (i : nat) (l : list string) : list string :=
  match l with
  | [] => []
  | x :: l' =>
      if decide (i mod 2 = r) then x :: filterParity r (S i) l'
      else filterParity r (S i) l'
  end.

(** ** Reading a key that an object does not own *)

(** What such a read finds in [Object.prototype]: a method, that is a
    function, of which only its [length] (the number of its parameters)
    matters here; or, under ["__proto__"], the prototype object itself,
    which has no [length]. *)
Inductive Inherited :=
| Method (arity : nat)
| ThePrototype.

Definition objectPrototype : list (string * Inherited) :=
  [ ("constructor", Method 1);
    ("hasOwnProperty", Method 1);
    ("isPrototypeOf", Method 1);
    ("propertyIsEnumerable", Method 1);
    ("toLocaleString", Method 0);
    ("toString", Method 0);
    ("valueOf", Method 0);
    ("__defineGetter__", Method 2);
    ("__defineSetter__", Method 2);
    ("__lookupGetter__", Method 1);
    ("__lookupSetter__", Method 1);
    ("__proto__", ThePrototype) ].

Fixpoint lookupMember (k : string) (table : list (string * Inherited))
  : option Inherited :=
  match table with
  | [] => None
  | (name, m) :: rest =>
      if decide (name = k) then Some m else lookupMember k rest
  end.

(** [({})[k]]: [None] for [undefined]. *)
Definition inherited (k : string) : option Inherited :=
  lookupMember k objectPrototype.

(** [halfSuits[suit].length]: [None] when [halfSuits[suit]] is [undefined]
    and reading its [length] throws, [Some None] when the [length] read is
    [undefined]. *)
Definition suitCardsLength (suit : string) : option (option nat) :=
  match halfSuit suit with
  | Some suitCards => Some (Some (length suitCards))
  | None =>
      match inherited suit with
      | Some (Method n) => Some (Some n)
      | Some ThePrototype => Some None
      | None => None
      end
  end.

(** [hands[k]]: a hand, a member of [Object.prototype], or [undefined]. *)
Inductive Slot :=
| Hand (cards : list Card)
| NotAHand (m : Inherited)
| NoSlot.

Definition readHand (h : gmap string (list Card)) (k : string) : Slot :=
  match h !! k with
  | Some cards => Hand cards
  | None =>
      match inherited k with
      | Some m => NotAHand m
      | None => NoSlot
      end
  end.

(** ** The per-player view: [getPlayerView] *)

(** What [view.hands[p]] can hold: the viewer's own entry, which is whatever
    [gameState.hands[playerName]] is; or, for any other player,
    [new Array(n)], an array with [n] empty slots, where [n] is the [length]
    of what [gameState.hands[p]] is; or, when that [length] is [undefined],
    [new Array(undefined)], the one-element array [[undefined]]. *)
Inductive ViewHand :=
| OwnHand (playerHand : Slot)
| EmptySlots (n : nat)
| OneUndefined.

Record PlayerView := {
  v_code : string;
  v_players : list string;
  v_teams : Teams;
  v_hands : gmap string ViewHand;
  v_currentTurn : Z;
  v_claimedSuits : Teams;
  v_host : string;
  v_started : bool;
  v_created : Z
}.

(** The [forEach] over [gameState.players] that fills [view.hands];
    reading [.length] of [undefined] throws. *)
Fixpoint viewHands (gameState : GameSession) (playerName : string)
    (ps : list string) (acc : gmap string ViewHand)
  : option (gmap string ViewHand) :=
  match ps with
  | [] => Some acc
  | p :: ps' =>
      if decide (p = playerName)
      then viewHands gameState playerName ps'
             (<[p := OwnHand (readHand (hands gameState) playerName)]> acc)
      else match readHand (hands gameState) p with
           | Hand h =>
               viewHands gameState playerName ps' (<[p := EmptySlots (length h)]> acc)
           | NotAHand (Method n) =>
               viewHands gameState playerName ps' (<[p := EmptySlots n]> acc)
           | NotAHand ThePrototype =>
               viewHands gameState playerName ps' (<[p := OneUndefined]> acc)
           | NoSlot => None
           end
  end.

Definition getPlayerView (gameState : GameSession) (playerName : string)
  : option PlayerView :=
  match viewHands gameState playerName (players gameState) ∅ with
  | Some vh =>
      Some {| v_code := code gameState; v_players := players gameState;
              v_teams := teams gameState; v_hands := vh;
              v_currentTurn := currentTurn gameState;
              v_claimedSuits := claimedSuits gameState;
              v_host := host gameState; v_started := started gameState;
              v_created := created gameState |}
  | None => None
  end.

(** ** Messages *)

Inductive ClientMessage :=
| CreateGame (playerName : string)
| JoinGame (gameCode playerName : string)
| AssignTeams (gameCode : string) (random : bool)
| StartGame (gameCode : string)
| AskForCard (gameCode target : string) (card : Card)
| MakeClaim (gameCode suit : string) (assignments : list (string * list Card))
| Rejoin (gameCode playerName : string)
| OtherType (type : string).

Inductive ServerMessage :=
| gameCreated (gameCode playerName : string)
| playerJoined (playerName : string) (players : list string)
| teamsAssigned (teams : Teams)
| gameStarted (gameState : PlayerView)
| turnUpdate (gameState : PlayerView) (log : string)
| gameEnded (winner : string) (team1Score team2Score : nat)
| error (message : string).

(** The outcomes of the random calls made while one message is handled:
    [generateGameCode()] (at most six characters among the digits and the
    capital letters), [Date.now()], and the orders produced by the two
    [sort(() => Math.random() - 0.5)] calls. *)
Record Chance := {
  newCode : string;
  now : Z;
  shuffledPlayers : list string;
  shuffledDeck : list Card
}.

(** ** The handler and the shared store *)

(** [games], [gamesDefined] and [timers] are global: the own keys of
    [global.games], whether that object exists yet (it is [undefined] until
    the first [storeGameState]), and the pending [setTimeout] deletions.
    [playerId], [gameCode] and [sent] belong to the connection whose handler
    runs ([sent] is what went through [ws.send]). *)
Record World := {
  games : gmap string GameSession;
  gamesDefined : bool;
  timers : list string;
  playerId : option string;
  gameCode : option string;
  sent : list ServerMessage
}.

Inductive Completion := Returned | Threw.

Definition send (m : ServerMessage) (w : World) : World :=
  {| games := games w; gamesDefined := gamesDefined w; timers := timers w;
     playerId := playerId w; gameCode := gameCode w; sent := sent w ++ [m] |}.

(** [sendToPlayer]: only the player bound to this connection is reached. *)
Definition sendToPlayer (playerName : string) (m : ServerMessage) (w : World) : World :=
  if decide (playerId w = Some playerName) then send m w else w.

(** [broadcast]: sends on this connection. *)
Definition broadcast (m : ServerMessage) (w : World) : World := send m w.

(** [global.games = global.games || {}; global.games[gameCode] = gameState] *)
Definition storeGameState (c : string) (gameState : GameSession) (w : World) : World :=
  {| games := <[c := gameState]> (games w); gamesDefined := true;
     timers := timers w; playerId := playerId w; gameCode := gameCode w;
     sent := sent w |}.

(** What [getGameState] returns: a stored session; or a member of
    [Object.prototype], which is truthy and has none of the fields of a
    session; or [null]. *)
Inductive Stored :=
| Session (gameState : GameSession)
| Foreign
| Nothing.

(** [global.games?.[gameCode] || null] *)
Definition getGameState (c : string) (w : World) : Stored :=
  match games w !! c with
  | Some gameState => Session gameState
  | None =>
      if gamesDefined w
      then match inherited c with
           | Some _ => Foreign
           | None => Nothing
           end
      else Nothing
  end.

Definition bind_connection (name c : string) (w : World) : World :=
  {| games := games w; gamesDefined := gamesDefined w; timers := timers w;
     playerId := Some name; gameCode := Some c; sent := sent w |}.

Definition setTimeout_delete (c : string) (w : World) : World :=
  {| games := games w; gamesDefined := gamesDefined w;
     timers := timers w ++ [c]; playerId := playerId w;
     gameCode := gameCode w; sent := sent w |}.

(** [gameState.players.forEach(player => this.sendToPlayer(player,
    { ..., gameState: this.getPlayerView(gameState, player) }))]: the view is
    built for every player, sent or not. *)
Fixpoint sendViews (mk : PlayerView → ServerMessage) (gameState : GameSession)
    (ps : list string) (w : World) : World * Completion :=
  match ps with
  | [] => (w, Returned)
  | player :: ps' =>
      match getPlayerView gameState player with
      | None => (w, Threw)
      | Some v => sendViews mk gameState ps' (sendToPlayer player (mk v) w)
      end
  end.

Definition noTeams : Teams := {| team1 := []; team2 := [] |}.

Definition createGame (ch : Chance) (playerName : string) (w : World)
  : World * Completion :=
  let gameCode := newCode ch in
  let gameState :=
    {| code := gameCode; players := [playerName]; teams := noTeams;
       hands := ∅; currentTurn := 0; claimedSuits := noTeams;
       host := playerName; started := false; created := now ch |} in
  let w := storeGameState gameCode gameState w in
  let w := bind_connection playerName gameCode w in
  (send (gameCreated gameCode playerName) w, Returned).

Definition joinGame (gameCode playerName : string) (w : World)
  : World * Completion :=
  match getGameState gameCode w with
  | Nothing => (send (error "Game not found") w, Returned)
  | Foreign => (w, Threw)
  | Session gameState =>
      if includes playerName (players gameState)
      then (send (error "Name already taken") w, Returned)
      else if 12 <=? length (players gameState)
      then (send (error "Game is full") w, Returned)
      else
        let gameState := set_players (players gameState ++ [playerName]) gameState in
        let w := storeGameState gameCode gameState w in
        let w := bind_connection playerName gameCode w in
        (broadcast (playerJoined playerName (players gameState)) w, Returned)
  end.

Definition assignTeams (ch : Chance) (gameCode : string) (random : bool) (w : World)
  : World * Completion :=
  match getGameState gameCode w with
  | Nothing => (w, Returned)
  | Foreign => (w, Threw)
  | Session gameState =>
      if length (players gameState) <? 4
      then (send (error "Need at least 4 players") w, Returned)
      else
        let players := if random then shuffledPlayers ch else players gameState in
        let gameState :=
          set_teams {| team1 := filterParity 0 0 players;
                       team2 := filterParity 1 0 players |} gameState in
        let w := storeGameState gameCode gameState w in
        (broadcast (teamsAssigned (teams gameState)) w, Returned)
  end.

(** The dealing loop:
    [hands[player] = deck.slice(i * cardsPerPlayer, (i + 1) * cardsPerPlayer)]. *)
Fixpoint deal (deck : list Card) (cardsPerPlayer : nat) (i : nat)
    (ps : list string) (h : gmap string (list Card)) : gmap string (list Card) :=
  match ps with
  | [] => h
  | player :: ps' =>
      deal deck cardsPerPlayer (S i) ps'
        (<[player := slice deck (i * cardsPerPlayer) ((i + 1) * cardsPerPlayer)]> h)
  end.

Definition startGame (ch : Chance) (gameCode : string) (w : World)
  : World * Completion :=
  match getGameState gameCode w with
  | Nothing => (w, Returned)
  | Foreign => (w, Threw)
  | Session gameState =>
      if started gameState then (w, Returned)
      else
        let deck := shuffledDeck ch in
        let cardsPerPlayer := length deck / length (players gameState) in
        let gameState :=
          set_hands (deal deck cardsPerPlayer 0 (players gameState) (hands gameState))
            gameState in
        let gameState := set_currentTurn 0 gameState in
        let gameState := set_started true gameState in
        let w := storeGameState gameCode gameState w in
        sendViews gameStarted gameState (players gameState) w
  end.

(** [hands[asker].includes(card)] and [hands[target].includes(card)] throw
    unless the key holds a hand: [undefined] has no properties, and a member
    of [Object.prototype] has no [includes]. *)
Definition askForCard (gameCode target : string) (card : Card) (w : World)
  : World * Completion :=
  match getGameState gameCode w with
  | Nothing => (w, Returned)
  | Foreign => (w, Threw)
  | Session gameState =>
      let asker := keyOf (at_index (players gameState) (currentTurn gameState)) in
      match hands gameState !! asker with
      | None => (w, Threw)
      | Some askerHand =>
          if includes card askerHand
          then (send (error "Can't ask for a card you have") w, Returned)
          else
            match hands gameState !! target with
            | None => (w, Threw)
            | Some targetHand =>
                let '(gameState, logMessage) :=
                  if includes card targetHand
                  then
                    (set_hands
                       (alter (λ h, h ++ [card]) asker
                          (<[target := filter (λ c, c ≠ card) targetHand]>
                             (hands gameState)))
                       gameState,
                     asker +:+ " asked " +:+ target +:+ " for " +:+ card +:+ " - YES!")
                  else
                    (set_currentTurn (indexOf target (players gameState)) gameState,
                     asker +:+ " asked " +:+ target +:+ " for " +:+ card +:+ " - NO") in
                let w := storeGameState gameCode gameState w in
                sendViews (λ v, turnUpdate v logMessage) gameState
                  (players gameState) w
            end
      end
  end.

(** *** makeClaim *)

(** The inner [for ... of] loop of the [allCorrect] computation, for one
    entry: [!gameState.hands[player]?.includes(card)] clears the flag and
    leaves the loop.  For [undefined] the optional chain yields [undefined];
    for a member of [Object.prototype] it calls its [includes], which is
    not a function, and throws ([None]). *)
Fixpoint cardsCorrect (slot : Slot) (cards : list Card) : option bool :=
  match cards with
  | [] => Some true
  | card :: rest =>
      match slot with
      | Hand hand => if includes card hand then cardsCorrect slot rest else Some false
      | NoSlot => Some false
      | NotAHand _ => None
      end
  end.

(** The outer loop: it goes through every entry, the flag once cleared
    stays cleared. *)
Fixpoint allCorrect (h : gmap string (list Card))
    (assignments : list (string * list Card)) : option bool :=
  match assignments with
  | [] => Some true
  | (player, cards) :: rest =>
      match cardsCorrect (readHand h player) cards with
      | None => None
      | Some ok =>
          match allCorrect h rest with
          | None => None
          | Some ok' => Some (ok && ok')
          end
      end
  end.

(** [teams.team1.includes(x) ? 'team1' : 'team2'], where [x] may be
    [undefined]. *)
Definition teamOf (ts : Teams) (x : option string) : TeamId :=
  match x with
  | Some p => if includes p (team1 ts) then Team1 else Team2
  | None => Team2
  end.

Definition allSameTeam (ts : Teams) (assignments : list (string * list Card)) : bool :=
  let firstPlayerTeam := teamOf ts (head (map fst assignments)) in
  forallb (λ p,
    (includes p (team1 ts) && bool_decide (firstPlayerTeam = Team1))
    || (includes p (team2 ts) && bool_decide (firstPlayerTeam = Team2)))
    (map fst assignments).

Definition oppositeOf (t : TeamId) : TeamId :=
  match t with Team1 => Team2 | Team2 => Team1 end.

(** [Object.entries(assignments).forEach(([player, cards]) =>
      hands[player] = hands[player].filter(c => !cards.includes(c)))];
    [filter] on anything but a hand throws and leaves the earlier
    removals. *)
Fixpoint removeClaimed (assignments : list (string * list Card))
    (h : gmap string (list Card)) : gmap string (list Card) * Completion :=
  match assignments with
  | [] => (h, Returned)
  | (player, cards) :: rest =>
      match h !! player with
      | None => (h, Threw)
      | Some hand =>
          removeClaimed rest (<[player := filter (λ c, c ∉ cards) hand]> h)
      end
  end.

(** [n === suitCards.length], the right-hand side possibly [undefined]. *)
Definition sameLength (n : nat) (suitCardsLength : option nat) : bool :=
  match suitCardsLength with
  | Some m => n =? m
  | None => false
  end.

(** The validation block of [makeClaim], from [assignedCards] to the last
    [logMessage], given [suitCards.length]: the session after it, the log
    line, and whether it completed. *)
Definition validateClaim (gameState : GameSession) (suit : string)
    (suitCardsLength : option nat) (assignments : list (string * list Card))
  : GameSession * string * Completion :=
  let claimer := at_index (players gameState) (currentTurn gameState) in
  let claimerTeam := teamOf (teams gameState) claimer in
  let assignedCards := concat (map snd assignments) in
  if sameLength (length assignedCards) suitCardsLength then
    match allCorrect (hands gameState) assignments with
    | None => (gameState, "", Threw)
    | Some true =>
      if allSameTeam (teams gameState) assignments then
        let gameState :=
          set_claimedSuits (pushTeam claimerTeam suit (claimedSuits gameState))
            gameState in
        let '(h, completion) := removeClaimed assignments (hands gameState) in
        (set_hands h gameState,
         keyOf claimer +:+ " successfully claimed " +:+ suit +:+ " for "
           +:+ teamKey claimerTeam +:+ "!",
         completion)
      else
        let oppositeTeam := oppositeOf claimerTeam in
        (set_claimedSuits (pushTeam oppositeTeam suit (claimedSuits gameState))
           gameState,
         keyOf claimer +:+ " failed claim on " +:+ suit +:+ ". "
           +:+ teamKey oppositeTeam +:+ " gets the suit!",
         Returned)
    | Some false =>
      (gameState, keyOf claimer +:+ " incorrectly claimed " +:+ suit, Returned)
    end
  else
    (gameState,
     keyOf claimer +:+ " failed to claim " +:+ suit +:+ " - not all cards assigned",
     Returned).

(** The same block when [halfSuits[suit]] is the array [suitCards]. *)
Definition resolveClaim (gameState : GameSession) (suit : string)
    (suitCards : list Card) (assignments : list (string * list Card))
  : GameSession * string * Completion :=
  validateClaim gameState suit (Some (length suitCards)) assignments.

Definition endGame (gameState : GameSession) (w : World) : World * Completion :=
  let t1Score := length (team1 (claimedSuits gameState)) in
  let t2Score := length (team2 (claimedSuits gameState)) in
  let winner :=
    if t2Score <? t1Score then "Team 1"
    else if t1Score <? t2Score then "Team 2" else "Tie" in
  let w := broadcast (gameEnded winner t1Score t2Score) w in
  (setTimeout_delete (code gameState) w, Returned).

(** [(currentTurn + 1) % players.length]; [%] takes the sign of the
    dividend.  (With no players JavaScript yields [NaN]; sessions are
    created with their host, so the list is never empty.) *)
Definition nextTurn (gameState : GameSession) : Z :=
  Z.rem (currentTurn gameState + 1) (Z.of_nat (length (players gameState))).

Definition makeClaim (gameCode suit : string)
    (assignments : list (string * list Card)) (w : World) : World * Completion :=
  match getGameState gameCode w with
  | Nothing => (w, Returned)
  | Foreign => (w, Threw)
  | Session gameState =>
      match suitCardsLength suit with
      | None => (w, Threw)
      | Some len =>
          let '(gameState, logMessage, completion) :=
            validateClaim gameState suit len assignments in
          let w := storeGameState gameCode gameState w in
          match completion with
          | Threw => (w, Threw)
          | Returned =>
              let totalClaimed :=
                length (team1 (claimedSuits gameState))
                + length (team2 (claimedSuits gameState)) in
              if 8 <=? totalClaimed then endGame gameState w
              else
                let gameState := set_currentTurn (nextTurn gameState) gameState in
                let w := storeGameState gameCode gameState w in
                sendViews (λ v, turnUpdate v logMessage) gameState
                  (players gameState) w
          end
      end
  end.

(** *** The dispatcher *)

(** The [switch] of [handleMessage].  [rejoinGame] is not a method of the
    class, so calling it throws. *)
Definition dispatch (ch : Chance) (m : ClientMessage) (w : World)
  : World * Completion :=
  match m with
  | CreateGame playerName => createGame ch playerName w
  | JoinGame gameCode playerName => joinGame gameCode playerName w
  | AssignTeams gameCode random => assignTeams ch gameCode random w
  | StartGame gameCode => startGame ch gameCode w
  | AskForCard gameCode target card => askForCard gameCode target card w
  | MakeClaim gameCode suit assignments => makeClaim gameCode suit assignments w
  | Rejoin _ _ => (w, Threw)
  | OtherType _ => (send (error "Unknown message type") w, Returned)
  end.

(** [handleMessage]: the [catch] clause answers with a generic error. *)
Definition handleMessage (ch : Chance) (m : ClientMessage) (w : World) : World :=
  match dispatch ch m w with
  | (w', Returned) => w'
  | (w', Threw) => send (error "Failed to process request") w'
  end.

(** The deferred [deleteGameState(gameState.code)] scheduled by [endGame]. *)
Fixpoint removeFirst (c : string) (l : list string) : list string :=
  match l with
  | [] => []
  | x :: l' => if decide (x = c) then l' else x :: removeFirst c l'
  end.

Definition fireTimer (c : string) (w : World) : World :=
  {| games := delete c (games w); gamesDefined := gamesDefined w;
     timers := removeFirst c (timers w);
     playerId := playerId w; gameCode := gameCode w; sent := sent w |}.

(** Another connection's handler takes over: same globals, its own
    [playerId], [gameCode] and socket. *)
Definition onConnection (pid gc : option string) (out : list ServerMessage)
    (w : World) : World :=
  {| games := games w; gamesDefined := gamesDefined w; timers := timers w;
     playerId := pid; gameCode := gc; sent := out |}.

(** ** Reachable worlds *)

(** What the random calls can return: both sorts only reorder their
    array. *)
Definition chance_ok (w : World) (ch : Chance) (m : ClientMessage) : Prop :=
  match m with
  | AssignTeams c true =>
      match games w !! c with
      | Some g => shuffledPlayers ch ≡ₚ players g
      | None => True
      end
  | StartGame _ => shuffledDeck ch ≡ₚ createDeck
  | _ => True
  end.

#[global] Instance chance_ok_dec w ch m : Decision (chance_ok w ch m).
Proof.
  destruct m as [| | c [|] | | | | |]; simpl; try apply _.
  destruct (games w !! c); apply _.
Defined.

Definition boot : World :=
  {| games := ∅; gamesDefined := false; timers := []; playerId := None;
     gameCode := None; sent := [] |}.

(** Worlds reachable from an empty server when clients only send messages
    that [allowed] admits in the world they arrive in. *)
Inductive reachableWhen (allowed : World → ClientMessage → Prop) : World → Prop :=
| reach_boot : reachableWhen allowed boot
| reach_message w ch m :
    reachableWhen allowed w → allowed w m → chance_ok w ch m →
    reachableWhen allowed (handleMessage ch m w)
| reach_connection w pid gc out :
    reachableWhen allowed w → reachableWhen allowed (onConnection pid gc out w)
| reach_timer w c :
    reachableWhen allowed w → c ∈ timers w → reachableWhen allowed (fireTimer c w).

Definition anyMessage (w : World) (m : ClientMessage) : Prop := True.

#[global] Instance anyMessage_dec w m : Decision (anyMessage w m).
Proof. unfold anyMessage. apply _. Defined.

(** Clients that only claim one of the eight half-suits, and only while
    neither team has it. *)
Definition freshClaims (w : World) (m : ClientMessage) : Prop :=
  match m with
  | MakeClaim c suit _ =>
      is_Some (halfSuit suit)
      ∧ match games w !! c with
        | Some g =>
            (suit ∉ team1 (claimedSuits g)) ∧ (suit ∉ team2 (claimedSuits g))
        | None => True
        end
  | _ => True
  end.

#[global] Instance freshClaims_dec w m : Decision (freshClaims w m).
Proof.
  destruct m as [| | | | |c suit a| |]; simpl; try apply _.
  destruct (games w !! c); apply _.
Defined.

(** Every sequence of client messages, connections and timer firings. *)
Definition reachable : World → Prop := reachableWhen anyMessage.

(** Running a script of messages, each with its random outcomes. *)
Definition run (script : list (Chance * ClientMessage)) (w : World) : World :=
  foldl (λ w '(ch, m), handleMessage ch m w) w script.

(** ** A concrete table used by the examples

    Alice creates game ABC123; Bob, Carol and Dave join; teams are assigned
    in join order; the deck comes out of the shuffle in its original order,
    so each player is dealt two whole half-suits. *)
Module Table.

Definition ch : Chance :=
  {| newCode := "ABC123"; now := 0; shuffledPlayers := [];
     shuffledDeck := createDeck |}.

Definition lobby : list (Chance * ClientMessage) :=
  [ (ch, CreateGame "Alice"); (ch, JoinGame "ABC123" "Bob");
    (ch, JoinGame "ABC123" "Carol"); (ch, JoinGame "ABC123" "Dave");
    (ch, AssignTeams "ABC123" false) ].

Definition seated : World := run lobby boot.

(** The session stored under ABC123 (a blank one if there is none). *)
Definition session (w : World) : GameSession :=
  default {| code := ""; players := []; teams := noTeams; hands := ∅;
             currentTurn := 0; claimedSuits := noTeams; host := "";
             started := false; created := 0 |}
          (games w !! "ABC123").

Definition dealt : World := run [(ch, StartGame "ABC123")] seated.

Definition lowHearts : list Card := ["2♥"; "3♥"; "4♥"; "5♥"; "6♥"; "7♥"].

(** Each player in turn claims the two half-suits they were dealt. *)
Definition eightClaims : list (Chance * ClientMessage) :=
  [ (ch, MakeClaim "ABC123" "low-hearts" [("Alice", lowHearts)]);
    (ch, MakeClaim "ABC123" "low-diamonds"
           [("Bob", ["2♦"; "3♦"; "4♦"; "5♦"; "6♦"; "7♦"])]);
    (ch, MakeClaim "ABC123" "low-clubs"
           [("Carol", ["2♣"; "3♣"; "4♣"; "5♣"; "6♣"; "7♣"])]);
    (ch, MakeClaim "ABC123" "low-spades"
           [("Dave", ["2♠"; "3♠"; "4♠"; "5♠"; "6♠"; "7♠"])]);
    (ch, MakeClaim "ABC123" "high-hearts"
           [("Alice", ["9♥"; "10♥"; "J♥"; "Q♥"; "K♥"; "A♥"])]);
    (ch, MakeClaim "ABC123" "high-diamonds"
           [("Bob", ["9♦"; "10♦"; "J♦"; "Q♦"; "K♦"; "A♦"])]);
    (ch, MakeClaim "ABC123" "high-clubs"
           [("Carol", ["9♣"; "10♣"; "J♣"; "Q♣"; "K♣"; "A♣"])]);
    (ch, MakeClaim "ABC123" "high-spades"
           [("Dave", ["9♠"; "10♠"; "J♠"; "Q♠"; "K♠"; "A♠"])]) ].

Definition finished : World := run eightClaims dealt.

(** Alice first claims low-hearts naming Bob, of the other team, for no
    card: the half-suit goes to team 2 and she keeps the cards.  The eight
    regular claims follow, Bob starting; after the eighth the game has
    ended, and one more claim of high-hearts is sent. *)
Definition overclaim : list (Chance * ClientMessage) :=
  [ (ch, MakeClaim "ABC123" "low-hearts" [("Alice", lowHearts); ("Bob", [])]);
    (ch, MakeClaim "ABC123" "low-diamonds"
           [("Bob", ["2♦"; "3♦"; "4♦"; "5♦"; "6♦"; "7♦"])]);
    (ch, MakeClaim "ABC123" "low-clubs"
           [("Carol", ["2♣"; "3♣"; "4♣"; "5♣"; "6♣"; "7♣"])]);
    (ch, MakeClaim "ABC123" "low-spades"
           [("Dave", ["2♠"; "3♠"; "4♠"; "5♠"; "6♠"; "7♠"])]);
    (ch, MakeClaim "ABC123" "low-hearts" [("Alice", lowHearts)]);
    (ch, MakeClaim "ABC123" "high-diamonds"
           [("Bob", ["9♦"; "10♦"; "J♦"; "Q♦"; "K♦"; "A♦"])]);
    (ch, MakeClaim "ABC123" "high-clubs"
           [("Carol", ["9♣"; "10♣"; "J♣"; "Q♣"; "K♣"; "A♣"])]);
    (ch, MakeClaim "ABC123" "high-spades"
           [("Dave", ["9♠"; "10♠"; "J♠"; "Q♠"; "K♠"; "A♠"])]);
    (ch, MakeClaim "ABC123" "high-hearts"
           [("Alice", ["9♥"; "10♥"; "J♥"; "Q♥"; "K♥"; "A♥"])]) ].

Definition overclaimed : World := run overclaim dealt.

(** Five at the table: Eve joins before the deal. *)
Definition fiveStart : list (Chance * ClientMessage) :=
  [ (ch, CreateGame "Alice"); (ch, JoinGame "ABC123" "Bob");
    (ch, JoinGame "ABC123" "Carol"); (ch, JoinGame "ABC123" "Dave");
    (ch, JoinGame "ABC123" "Eve"); (ch, StartGame "ABC123") ].

(** A lobby filled to twelve players. *)
Definition crowded : World :=
  run (map (λ n, (ch, JoinGame "ABC123" n))
         ["Eve"; "Fay"; "Gus"; "Hal"; "Ida"; "Jon"; "Kim"; "Lee"]) seated.

End Table.

(** A script all of whose messages are admitted and all of whose random
    outcomes are legal, step by step. *)
Fixpoint script_ok (allowed : World → ClientMessage → Prop)
    (script : list (Chance * ClientMessage)) (w : World) : Prop :=
  match script with
  | [] => True
  | (ch, m) :: rest =>
      allowed w m ∧ chance_ok w ch m
      ∧ script_ok allowed rest (handleMessage ch m w)
  end.

#[global] Instance script_ok_dec allowed `{∀ w m, Decision (allowed w m)}
  script w : Decision (script_ok allowed script w).
Proof.
  revert w. induction script as [|[ch m] rest IH]; intros w; simpl; apply _.
Defined.

(** ** What one message does to one session *)

(** The code a message is addressed to. *)
Definition targetOf (m : ClientMessage) : option string :=
  match m with
  | JoinGame c _ | AssignTeams c _ | StartGame c | AskForCard c _ _
  | MakeClaim c _ _ | Rejoin c _ => Some c
  | CreateGame _ | OtherType _ => None
  end.

(** The session [createGame] stores. *)
Definition newSession (ch : Chance) (playerName : string) : GameSession :=
  {| code := newCode ch; players := [playerName]; teams := noTeams;
     hands := ∅; currentTurn := 0; claimedSuits := noTeams;
     host := playerName; started := false; created := now ch |}.

(** The ways a handler rewrites the session it was sent to. *)
Inductive sessionStep (ch : Chance) (g : GameSession)
  : ClientMessage → GameSession → Prop :=
| step_join c name :
    name ∉ players g →
    sessionStep ch g (JoinGame c name) (set_players (players g ++ [name]) g)
| step_teams (c : string) (random : bool) :
    let order := if random then shuffledPlayers ch else players g in
    sessionStep ch g (AssignTeams c random)
      (set_teams {| team1 := filterParity 0 0 order;
                    team2 := filterParity 1 0 order |} g)
| step_start c :
    started g = false →
    sessionStep ch g (StartGame c)
      (set_started true (set_currentTurn 0
         (set_hands (deal (shuffledDeck ch)
                       (length (shuffledDeck ch) / length (players g)) 0
                       (players g) (hands g)) g)))
| step_ask_yes c target card asker askerHand targetHand :
    hands g !! asker = Some askerHand → card ∉ askerHand →
    hands g !! target = Some targetHand → card ∈ targetHand →
    sessionStep ch g (AskForCard c target card)
      (set_hands (alter (λ h, h ++ [card]) asker
                    (<[target := filter (λ x, x ≠ card) targetHand]> (hands g))) g)
| step_ask_no c target card turn :
    sessionStep ch g (AskForCard c target card) (set_currentTurn turn g)
| step_claim c suit assignments len g1 logMessage completion :
    validateClaim g suit len assignments = (g1, logMessage, completion) →
    sessionStep ch g (MakeClaim c suit assignments) g1
| step_claim_turn c suit assignments len g1 logMessage completion :
    validateClaim g suit len assignments = (g1, logMessage, completion) →
    sessionStep ch g (MakeClaim c suit assignments)
      (set_currentTurn (nextTurn g1) g1).

(** ** Card accounting *)

(** All cards in the players' hands, player by player
    ([players.flatMap(p => hands[p] ?? [])]). *)
Definition handsOf (h : gmap string (list Card)) (ps : list string) : list Card :=
  concat (map (λ p, default [] (h !! p)) ps).

Definition allHands (g : GameSession) : list Card := handsOf (hands g) (players g).

(** The same as a multiset. *)
Definition cardsIn (g : GameSession) : gmultiset string :=
  list_to_set_disj (allHands g).

Definition deckCards : gmultiset string := list_to_set_disj createDeck.

(** The books kept on a game from the outside: the cards that were dealt
    when it started and to how many players, and the cards that have left
    the hands during [makeClaim] calls since. *)
Record Ledger := {
  dealtCards : gmultiset string;
  dealtTo : nat;
  removedCards : gmultiset string
}.

(** Bookkeeping for one handled message, from the store before ([w]) and
    after ([w']): a game that starts opens its ledger with the hands just
    dealt; a [makeClaim] adds the cards that were in the hands before and
    are no longer there after. *)
Definition audit (m : ClientMessage) (w w' : World) (book : gmap string Ledger)
  : gmap string Ledger :=
  match m with
  | StartGame c =>
      match games w !! c, games w' !! c with
      | Some g, Some g' =>
          if started g then book
          else <[c := {| dealtCards := cardsIn g'; dealtTo := length (players g);
                         removedCards := ∅ |}]> book
      | _, _ => book
      end
  | MakeClaim c _ _ =>
      match games w !! c, games w' !! c, book !! c with
      | Some g, Some g', Some l =>
          <[c := {| dealtCards := dealtCards l; dealtTo := dealtTo l;
                    removedCards := removedCards l ⊎ (cardsIn g ∖ cardsIn g') |}]>
            book
      | _, _, _ => book
      end
  | _ => book
  end.

(** Reachable worlds together with their books. *)
Inductive audited : World → gmap string Ledger → Prop :=
| audited_boot : audited boot ∅
| audited_message w book ch m :
    audited w book → chance_ok w ch m →
    audited (handleMessage ch m w) (audit m w (handleMessage ch m w) book)
| audited_connection w book pid gc out :
    audited w book → audited (onConnection pid gc out w) book
| audited_timer w book c :
    audited w book → c ∈ timers w → audited (fireTimer c w) book.

Definition runAudited (script : list (Chance * ClientMessage))
    (wb : World * gmap string Ledger) : World * gmap string Ledger :=
  foldl (λ wb '(ch, m),
           let w' := handleMessage ch m wb.1 in (w', audit m wb.1 w' wb.2))
        wb script.

(** ** Invariants *)

(** Shape of a stored session: players are distinct, only players have a
    hand, and there are no hands before the deal. *)
Definition tidy (g : GameSession) : Prop :=
  NoDup (players g)
  ∧ (∀ p, is_Some (hands g !! p) → p ∈ players g)
  ∧ (started g = false → hands g = ∅).

(** The books of a started game balance: hands plus removed cards are the
    dealt cards, which are cards of the deck, each at most once, and as many
    as [floor(48 / n)] for each of the [n] players dealt to. *)
Definition balanced (g : GameSession) (l : Ledger) : Prop :=
  cardsIn g ⊎ removedCards l = dealtCards l
  ∧ dealtCards l ⊆ deckCards
  ∧ size (dealtCards l) = dealtTo l * (48 / dealtTo l).

(** No half-suit name twice over the two lists, and only names of the
    table. *)
Definition wellClaimed (cs : Teams) : Prop :=
  NoDup (team1 cs ++ team2 cs)
  ∧ ∀ s, s ∈ team1 cs ++ team2 cs → is_Some (halfSuit s).


(** ** Further vocabulary *)

(** The messages that carry a game state. *)
Definition carries (msg : ServerMessage) (v : PlayerView) : Prop :=
  msg = gameStarted v ∨ ∃ logMessage, msg = turnUpdate v logMessage.


(** Clients none of whom takes the name ["__proto__"], the key whose
    assignment replaces the prototype of [hands]. *)
Definition ordinaryNames (w : World) (m : ClientMessage) : Prop :=
  match m with
  | CreateGame playerName | JoinGame _ playerName => playerName ≠ "__proto__"
  | _ => True
  end.

#[global] Instance ordinaryNames_dec w m : Decision (ordinaryNames w m).
Proof. destruct m; simpl; apply _. Defined.

(** ** Basic facts about the plumbing *)

(** The example worlds hold a session under ABC123. *)
Ltac table_session := vm_compute; reflexivity.

Lemma getGameState_session c w g :
  games w !! c = Some g → getGameState c w = Session g.
Proof. unfold getGameState. by intros ->. Qed.

Lemma getGameState_nothing c w :
  games w !! c = None → gamesDefined w = false ∨ inherited c = None →
  getGameState c w = Nothing.
Proof.
  unfold getGameState. intros -> [->| ->]; [done|]. by destruct (gamesDefined w).
Qed.

Lemma getGameState_foreign c w :
  games w !! c = None → gamesDefined w = true → is_Some (inherited c) →
  getGameState c w = Foreign.
Proof. unfold getGameState. by intros -> -> [m ->]. Qed.

Lemma getGameState_found c w g :
  getGameState c w = Session g → games w !! c = Some g.
Proof.
  unfold getGameState. destruct (games w !! c) as [g0|]; [by intros [= ->]|].
  destruct (gamesDefined w); [|done]. by destruct (inherited c).
Qed.

(** For a code under which nothing is stored, [getGameState] is [Foreign]
    or [Nothing]. *)
Lemma getGameState_absent c w :
  games w !! c = None →
  getGameState c w = Foreign ∨ getGameState c w = Nothing.
Proof.
  unfold getGameState. intros ->.
  destruct (gamesDefined w); [|by right]. destruct (inherited c); auto.
Qed.

Lemma sendToPlayer_games p m w : games (sendToPlayer p m w) = games w.
Proof. unfold sendToPlayer. by case_decide. Qed.

Lemma sendToPlayer_timers p m w : timers (sendToPlayer p m w) = timers w.
Proof. unfold sendToPlayer. by case_decide. Qed.

Lemma sendViews_games mk g ps w : games (sendViews mk g ps w).1 = games w.
Proof.
  revert w. induction ps as [|p ps IH]; intros w; simpl; [done|].
  destruct (getPlayerView g p); [|done].
  by rewrite IH, sendToPlayer_games.
Qed.

Lemma sendViews_timers mk g ps w : timers (sendViews mk g ps w).1 = timers w.
Proof.
  revert w. induction ps as [|p ps IH]; intros w; simpl; [done|].
  destruct (getPlayerView g p); [|done].
  by rewrite IH, sendToPlayer_timers.
Qed.

Lemma includes_true x l : includes x l = true ↔ x ∈ l.
Proof. unfold includes. apply bool_decide_eq_true. Qed.

Lemma includes_false x l : includes x l = false ↔ x ∉ l.
Proof. unfold includes. apply bool_decide_eq_false. Qed.

Lemma run_reachable allowed script w :
  reachableWhen allowed w → script_ok allowed script w →
  reachableWhen allowed (run script w).
Proof.
  revert w. induction script as [|[ch m] rest IH]; intros w Hw Hok; [done|].
  destruct Hok as (Hal & Hch & Hrest). simpl. apply IH; [|done].
  by apply reach_message.
Qed.


Lemma run_app s1 s2 w : run (s1 ++ s2) w = run s2 (run s1 w).
Proof. unfold run. by rewrite foldl_app. Qed.

Lemma Table_dealt_reachable allowed `{∀ w m, Decision (allowed w m)} :
  script_ok allowed (Table.lobby ++ [(Table.ch, StartGame "ABC123")]) boot →
  reachableWhen allowed Table.dealt.
Proof.
  intros Hok. unfold Table.dealt, Table.seated. rewrite <- run_app.
  apply run_reachable; [constructor|exact Hok].
Qed.

(** The dealing loop gives the player at position [k] the [k]-th slice. *)
Lemma deal_lookup_notin deck cpp i (ps : list string)
    (h : gmap string (list string)) p :
  p ∉ ps → deal deck cpp i ps h !! p = h !! p.
Proof.
  revert i h. induction ps as [|q ps IH]; intros i h Hp; [done|].
  apply not_elem_of_cons in Hp as [Hne Hp]. simpl.
  by rewrite IH, lookup_insert_ne.
Qed.

Lemma deal_lookup deck cpp i (ps : list string) (h : gmap string (list string)) k p :
  NoDup ps → ps !! k = Some p →
  deal deck cpp i ps h !! p
  = Some (slice deck ((i + k) * cpp) ((i + k + 1) * cpp)).
Proof.
  intros Hnd. revert i h k. induction Hnd as [|q ps Hq Hnd IH]; intros i h k Hk.
  { by rewrite lookup_nil in Hk. }
  simpl. destruct k as [|k]; simpl in Hk.
  - injection Hk as ->. rewrite deal_lookup_notin, lookup_insert_eq by done.
    by rewrite Nat.add_0_r.
  - rewrite (IH (S i) _ k Hk). do 2 f_equal; lia.
Qed.

(** ** createGame *)

Section CreateGame.

(** C9 (as stated in the specification, refuted): creating a game with an
    empty host name is NOT rejected.  On an empty server, [createGame] with
    the empty name stores a session and answers [gameCreated]; it is false
    that the store stays as it was with an error reply. *)
Lemma createGame_empty_host_is_stored :
  let w' := handleMessage Table.ch (CreateGame "") boot in
  ¬ (games w' = games boot ∧ ∃ message, sent w' = [error message])
  ∧ (players <$> games w' !! "ABC123") = Some [""]
  ∧ sent w' = [gameCreated "ABC123" ""].
Proof.
  vm_compute. split; [|done].
  intros [_ [message Hsent]]. discriminate Hsent.
Qed.

(** C9 (amended): [createGame] validates nothing.  For every host name, the
    empty one included, it stores under the generated code a lobby session
    whose only player and host is that name, binds the connection to it and
    answers [gameCreated]; no error is sent and nothing is thrown. *)
Theorem createGame_accepts_any_host ch (playerName : string) w :
  let r := createGame ch playerName w in
  r.2 = Returned
  ∧ games r.1 !! newCode ch =
      Some {| code := newCode ch; players := [playerName]; teams := noTeams;
              hands := ∅; currentTurn := 0; claimedSuits := noTeams;
              host := playerName; started := false; created := now ch |}
  ∧ (∀ c, c ≠ newCode ch → games r.1 !! c = games w !! c)
  ∧ sent r.1 = sent w ++ [gameCreated (newCode ch) playerName]
  ∧ playerId r.1 = Some playerName.
Proof.
  simpl. repeat split.
  - by rewrite lookup_insert_eq.
  - intros c Hc. by rewrite lookup_insert_ne.
Qed.

End CreateGame.

(** ** joinGame *)

Section JoinGame.

(** C4 (as stated in the specification, refuted): joining a started game is
    NOT rejected.  After the deal at the example table, Eve joins: it is
    false that the player list is unchanged; she is appended and
    [playerJoined] is sent.  Nor is every code without a session answered
    "Game not found": nothing is stored under toString, and a join with
    that code is answered "Failed to process request". *)
Lemma joinGame_after_start_succeeds :
  let w := onConnection None None [] Table.dealt in
  let w' := handleMessage Table.ch (JoinGame "ABC123" "Eve") w in
  let w'' := handleMessage Table.ch (JoinGame "toString" "Eve") w in
  (started <$> games w !! "ABC123") = Some true
  ∧ ¬ ((players <$> games w' !! "ABC123") = (players <$> games w !! "ABC123"))
  ∧ (players <$> games w' !! "ABC123")
    = Some ["Alice"; "Bob"; "Carol"; "Dave"; "Eve"]
  ∧ sent w' = [playerJoined "Eve" ["Alice"; "Bob"; "Carol"; "Dave"; "Eve"]]
  ∧ games w !! "toString" = None
  ∧ sent w'' = [error "Failed to process request"]
  ∧ ¬ (sent w'' = [error "Game not found"]).
Proof. vm_compute. repeat split; try done. Qed.

(** C4 (amended): the outcomes of [joinGame], in the order they are
    tested.  When no session is stored under the code, the answer is "Game
    not found", unless the code is the name of a member of
    [Object.prototype] and the store object exists: then the handler throws
    on the [players] that member does not have, and the answer is "Failed
    to process request".  When the name is among the players the answer is
    "Name already taken", and when there are 12 or more players it is "Game
    is full".  In each of these cases the store, hence [players], is
    unchanged.  In every other case, whether or not the game has started,
    the name is appended to [players], nothing else in the session changes,
    and [playerJoined] is sent. *)
Theorem joinGame_outcomes (c name : string) w :
  (games w !! c = None → gamesDefined w = false ∨ inherited c = None →
     let r := joinGame c name w in
     r.2 = Returned ∧ games r.1 = games w
     ∧ sent r.1 = sent w ++ [error "Game not found"])
  ∧ (games w !! c = None → gamesDefined w = true → is_Some (inherited c) →
     joinGame c name w = (w, Threw)
     ∧ ∀ ch, let w' := handleMessage ch (JoinGame c name) w in
         games w' = games w
         ∧ sent w' = sent w ++ [error "Failed to process request"])
  ∧ (∀ g, games w !! c = Some g → name ∈ players g →
     let r := joinGame c name w in
     r.2 = Returned ∧ games r.1 = games w
     ∧ sent r.1 = sent w ++ [error "Name already taken"])
  ∧ (∀ g, games w !! c = Some g → name ∉ players g → 12 ≤ length (players g) →
     let r := joinGame c name w in
     r.2 = Returned ∧ games r.1 = games w
     ∧ sent r.1 = sent w ++ [error "Game is full"])
  ∧ (∀ g, games w !! c = Some g → name ∉ players g → length (players g) < 12 →
     let r := joinGame c name w in
     r.2 = Returned
     ∧ games r.1 !! c = Some (set_players (players g ++ [name]) g)
     ∧ (∀ c', c' ≠ c → games r.1 !! c' = games w !! c')
     ∧ sent r.1 = sent w ++ [playerJoined name (players g ++ [name])]).
Proof.
  split; [|split; [|split; [|split]]].
  - intros Hnone Hplain. unfold joinGame.
    by rewrite (getGameState_nothing c w Hnone Hplain).
  - intros Hnone Hdef Hinh.
    assert (Hj : joinGame c name w = (w, Threw)).
    { unfold joinGame. by rewrite (getGameState_foreign c w Hnone Hdef Hinh). }
    split; [exact Hj|]. intros ch. unfold handleMessage. cbn [dispatch].
    by rewrite Hj.
  - intros g Hg Hin. unfold joinGame.
    rewrite (getGameState_session c w g Hg).
    by rewrite (proj2 (includes_true _ _) Hin).
  - intros g Hg Hnin Hfull. unfold joinGame.
    rewrite (getGameState_session c w g Hg).
    rewrite (proj2 (includes_false _ _) Hnin).
    by rewrite (proj2 (Nat.leb_le _ _) Hfull).
  - intros g Hg Hnin Hroom. unfold joinGame.
    rewrite (getGameState_session c w g Hg).
    rewrite (proj2 (includes_false _ _) Hnin).
    rewrite (proj2 (Nat.leb_gt _ _) Hroom). simpl.
    split; [done|]. split; [by rewrite lookup_insert_eq|]. split; [|done].
    intros c' Hc'. by rewrite lookup_insert_ne.
Qed.

(** The five outcomes of a join at the example table: an unknown code, the
    code toString, a taken name, a full table of twelve, and a late join. *)
Lemma joinGame_outcomes_witness :
  sent (joinGame "NOSUCH" "Eve" Table.dealt).1
    = sent Table.dealt ++ [error "Game not found"]
  ∧ joinGame "toString" "Eve" Table.dealt = (Table.dealt, Threw)
  ∧ sent (joinGame "ABC123" "Bob" Table.dealt).1
    = sent Table.dealt ++ [error "Name already taken"]
  ∧ sent (joinGame "ABC123" "Zed" Table.crowded).1
    = sent Table.crowded ++ [error "Game is full"]
  ∧ games (joinGame "ABC123" "Eve" Table.dealt).1 !! "ABC123"
    = Some (set_players ["Alice"; "Bob"; "Carol"; "Dave"; "Eve"]
              (Table.session Table.dealt)).
Proof.
  assert (Hd : games Table.dealt !! "ABC123" = Some (Table.session Table.dealt))
    by table_session.
  assert (Hc : games Table.crowded !! "ABC123" = Some (Table.session Table.crowded))
    by table_session.
  destruct (joinGame_outcomes "NOSUCH" "Eve" Table.dealt) as (H1 & _).
  destruct (joinGame_outcomes "toString" "Eve" Table.dealt) as (_ & H2 & _).
  destruct (joinGame_outcomes "ABC123" "Bob" Table.dealt) as (_ & _ & H3 & _).
  destruct (joinGame_outcomes "ABC123" "Zed" Table.crowded) as (_ & _ & _ & H4 & _).
  destruct (joinGame_outcomes "ABC123" "Eve" Table.dealt) as (_ & _ & _ & _ & H5).
  split; [|split; [|split; [|split]]].
  - refine (proj2 (proj2 (H1 _ _))); [vm_compute; reflexivity|].
    right. vm_compute; reflexivity.
  - refine (proj1 (H2 _ _ _)); [vm_compute; reflexivity|vm_compute; reflexivity|].
    eexists. vm_compute; reflexivity.
  - refine (proj2 (proj2 (H3 _ Hd _))). compute_done.
  - refine (proj2 (proj2 (H4 _ Hc _ _))); compute_done.
  - refine (proj1 (proj2 (H5 _ Hd _ _))); compute_done.
Defined.

End JoinGame.

(** ** startGame *)

Section StartGame.


(** C7, at the failing input: a [startGame] on a code without a session is
    not always silent.  After the deal at the example table nothing is
    stored under toString, yet a [startGame] with that code throws (the
    guard passes, since the member of [Object.prototype] found under it has
    no [started], and [players.length] then fails) and is answered "Failed
    to process request". *)
Lemma startGame_absent_code_not_silent :
  let w := Table.dealt in
  let w' := handleMessage Table.ch (StartGame "toString") w in
  games w !! "toString" = None
  ∧ (startGame Table.ch "toString" w).2 = Threw
  ∧ sent w' = sent w ++ [error "Failed to process request"]
  ∧ ¬ (w' = w).
Proof.
  split; [vm_compute; reflexivity|].
  split; [vm_compute; reflexivity|].
  split; [vm_compute; reflexivity|].
  intros Heq. apply (f_equal (λ v, length (sent v))) in Heq.
  vm_compute in Heq. discriminate Heq.
Qed.



End StartGame.

(** ** assignTeams *)

Section AssignTeams.

(** [filter((_, i) => i % 2 === r)] keeps exactly the elements at the
    positions of parity [r], in order. *)
Lemma filterParity_lookup (l : list string) r i k :
  r < 2 →
  (i mod 2 = r → filterParity r i l !! k = l !! (2 * k))
  ∧ (i mod 2 ≠ r → filterParity r i l !! k = l !! (2 * k + 1)).
Proof.
  intros Hr. revert i k. induction l as [|x l IH]; intros i k.
  { simpl. by rewrite !lookup_nil. }
  assert (Hmod : i mod 2 < 2) by (apply Nat.mod_upper_bound; lia).
  assert (HS : S i mod 2 = 1 - i mod 2).
  { replace (S i) with (i + 1) by lia.
    rewrite Nat.Div0.add_mod by lia.
    destruct (i mod 2) as [|[|?]]; simpl; [done|done|lia]. }
  cbn [filterParity].
  split; intros Hi; case_decide; try done.
  - destruct k as [|k]; [done|].
    replace (2 * S k) with (S (S (2 * k))) by lia.
    change (filterParity r (S i) l !! k = l !! S (2 * k)).
    destruct (IH (S i) k) as [_ HIH]. rewrite HIH by lia.
    f_equal. lia.
  - replace (2 * k + 1) with (S (2 * k)) by lia.
    change (filterParity r (S i) l !! k = l !! (2 * k)).
    destruct (IH (S i) k) as [HIH _]. apply HIH. lia.
Qed.

(** C10, at the failing input: a code without a session is not always
    ignored in silence.  After the deal at the example table nothing is
    stored under toString, yet an [assignTeams] with that code throws on the
    [players] that the member of [Object.prototype] found under it does not
    have, and a reply is sent: "Failed to process request". *)
Lemma assignTeams_absent_code_not_silent :
  let w := Table.dealt in
  let w' := handleMessage Table.ch (AssignTeams "toString" false) w in
  games w !! "toString" = None
  ∧ (assignTeams Table.ch "toString" false w).2 = Threw
  ∧ sent w' = sent w ++ [error "Failed to process request"]
  ∧ ¬ (sent w' = sent w).
Proof.
  split; [vm_compute; reflexivity|].
  split; [vm_compute; reflexivity|].
  split; [vm_compute; reflexivity|].
  intros Heq. apply (f_equal length) in Heq. vm_compute in Heq. discriminate Heq.
Qed.

(** X22: [assignTeams] never looks at [started].  For a code with
    no session that is not the name of a member of [Object.prototype] (or
    while the store object does not exist yet) it returns silently: no
    reply, no change.  For a code with no session that is such a name it
    throws, nothing changes and the answer is "Failed to process request".
    With fewer than 4 players it replies "Need at least 4 players" and
    changes nothing.  And for every session with at least 4 players,
    started or not, it stores the session with [teams] replaced by the
    even-position and odd-position players of the order used (join order,
    or the shuffled order when [random] is set) and every other field (in
    particular [started] and [hands]) as it was, touches no other session,
    and sends exactly one message, [teamsAssigned] with the new teams. *)
Theorem assignTeams_no_lifecycle_guard ch (c : string) (random : bool) w :
  (games w !! c = None → gamesDefined w = false ∨ inherited c = None →
     assignTeams ch c random w = (w, Returned)
     ∧ handleMessage ch (AssignTeams c random) w = w)
  ∧ (games w !! c = None → gamesDefined w = true → is_Some (inherited c) →
     assignTeams ch c random w = (w, Threw)
     ∧ let w' := handleMessage ch (AssignTeams c random) w in
       games w' = games w
       ∧ sent w' = sent w ++ [error "Failed to process request"])
  ∧ (∀ g, games w !! c = Some g → length (players g) < 4 →
       let r := assignTeams ch c random w in
       r.2 = Returned ∧ games r.1 = games w
       ∧ sent r.1 = sent w ++ [error "Need at least 4 players"])
  ∧ (∀ g, games w !! c = Some g → 4 ≤ length (players g) →
       let order := if random then shuffledPlayers ch else players g in
       let r := assignTeams ch c random w in
       ∃ g', r.2 = Returned
         ∧ games r.1 !! c = Some g'
         ∧ (∀ c', c' ≠ c → games r.1 !! c' = games w !! c')
         ∧ sent r.1 = sent w ++ [teamsAssigned (teams g')]
         ∧ (∀ k, team1 (teams g') !! k = order !! (2 * k))
         ∧ (∀ k, team2 (teams g') !! k = order !! (2 * k + 1))
         ∧ started g' = started g ∧ hands g' = hands g
         ∧ players g' = players g ∧ currentTurn g' = currentTurn g
         ∧ claimedSuits g' = claimedSuits g).
Proof.
  split; [|split; [|split]].
  - intros Hnone Hplain.
    assert (Ha : assignTeams ch c random w = (w, Returned)).
    { unfold assignTeams. by rewrite (getGameState_nothing c w Hnone Hplain). }
    split; [exact Ha|]. unfold handleMessage. cbn [dispatch]. by rewrite Ha.
  - intros Hnone Hdef Hinh.
    assert (Ha : assignTeams ch c random w = (w, Threw)).
    { unfold assignTeams. by rewrite (getGameState_foreign c w Hnone Hdef Hinh). }
    split; [exact Ha|]. unfold handleMessage. cbn [dispatch]. by rewrite Ha.
  - intros g Hg Hlt. unfold assignTeams.
    rewrite (getGameState_session c w g Hg).
    by rewrite (proj2 (Nat.ltb_lt _ _) Hlt).
  - intros g Hg Hge order. unfold assignTeams.
    rewrite (getGameState_session c w g Hg), (proj2 (Nat.ltb_ge _ _) Hge).
    fold order. simpl.
    eexists. split; [done|]. split; [by rewrite lookup_insert_eq|].
    split; [intros c' Hc'; by rewrite lookup_insert_ne|]. simpl.
    split; [done|]. repeat split.
    + intros k. apply (filterParity_lookup order 0 0 k); [lia|done].
    + intros k. apply (filterParity_lookup order 1 0 k); [lia|done].
Qed.

(** Reassignment at the example table after the deal ([started] is true,
    twelve cards in each hand): a random reassignment with the order Dave,
    Carol, Bob, Alice goes through and is announced; with the code toString
    the handler throws. *)
Lemma assignTeams_no_lifecycle_guard_witness :
  let ch := {| newCode := ""; now := 0;
               shuffledPlayers := ["Dave"; "Carol"; "Bob"; "Alice"];
               shuffledDeck := [] |} in
  (started <$> games Table.dealt !! "ABC123") = Some true
  ∧ (∃ g', games (assignTeams ch "ABC123" true Table.dealt).1 !! "ABC123" = Some g'
           ∧ sent (assignTeams ch "ABC123" true Table.dealt).1
             = sent Table.dealt ++ [teamsAssigned (teams g')]
           ∧ team1 (teams g') !! 0 = Some "Dave" ∧ team1 (teams g') !! 1 = Some "Bob"
           ∧ team2 (teams g') !! 0 = Some "Carol"
           ∧ team2 (teams g') !! 1 = Some "Alice"
           ∧ started g' = true)
  ∧ assignTeams ch "toString" true Table.dealt = (Table.dealt, Threw).
Proof.
  intros ch. split; [vm_compute; reflexivity|].
  assert (Hg : games Table.dealt !! "ABC123" = Some (Table.session Table.dealt))
    by table_session.
  destruct (assignTeams_no_lifecycle_guard ch "ABC123" true Table.dealt)
    as (_ & _ & _ & Hmany).
  destruct (assignTeams_no_lifecycle_guard ch "toString" true Table.dealt)
    as (_ & Hthrow & _).
  split.
  - destruct (Hmany (Table.session Table.dealt) Hg)
      as (g' & _ & Hg' & _ & Hsent & H1 & H2 & Hst & _).
    { compute_done. }
    exists g'. split; [exact Hg'|]. split; [exact Hsent|].
    rewrite !H1, !H2, Hst. vm_compute. repeat split; reflexivity.
  - refine (proj1 (Hthrow _ _ _)); [vm_compute; reflexivity|vm_compute; reflexivity|].
    eexists. vm_compute; reflexivity.
Defined.

End AssignTeams.

(** ** askForCard *)

Section AskForCard.

Lemma indexOf_nonneg_at (x : string) (l : list string) :
  x ∈ l → at_index l (indexOf x l) = Some x.
Proof.
  unfold at_index. induction l as [|y l IH]; intros Hin.
  { by apply elem_of_nil in Hin. }
  simpl. case_decide as Hy.
  - subst y. reflexivity.
  - apply elem_of_cons in Hin as [->|Hin]; [done|].
    specialize (IH Hin).
    destruct (indexOf x l <? 0)%Z eqn:Hneg; [done|].
    apply Z.ltb_ge in Hneg.
    destruct (indexOf x l + 1 <? 0)%Z eqn:Hneg'; [apply Z.ltb_lt in Hneg'; lia|].
    replace (Z.to_nat (indexOf x l + 1)) with (S (Z.to_nat (indexOf x l))) by lia.
    exact IH.
Qed.

(** C5 (as stated in the specification, refuted): in a started game the
    turn does not always pass to a target who does not hold the card.
    After the deal at the example table Eve joins, which the code allows;
    she is a player and has no hand.  It is Alice's turn and Alice does not
    hold the 2 of diamonds.  When Alice asks Eve for it, the handler throws
    on Eve's missing hand: the world is unchanged, [currentTurn] is still 0
    and not Eve's index 4, and the answer is "Failed to process
    request". *)
Lemma askForCard_target_without_hand :
  let w := run [(Table.ch, JoinGame "ABC123" "Eve")] Table.dealt in
  let g := Table.session w in
  let w' := handleMessage Table.ch (AskForCard "ABC123" "Eve" "2♦") w in
  reachable w
  ∧ games w !! "ABC123" = Some g ∧ started g = true
  ∧ at_index (players g) (currentTurn g) = Some "Alice"
  ∧ (∃ hand, hands g !! "Alice" = Some hand ∧ "2♦" ∉ hand)
  ∧ "Eve" ∈ players g ∧ hands g !! "Eve" = None
  ∧ indexOf "Eve" (players g) = 4%Z
  ∧ (askForCard "ABC123" "Eve" "2♦" w).2 = Threw
  ∧ games w' = games w
  ∧ sent w' = sent w ++ [error "Failed to process request"]
  ∧ ¬ (currentTurn (Table.session w') = indexOf "Eve" (players g)).
Proof.
  intros w g w'.
  split.
  { apply run_reachable; [|compute_done].
    apply (Table_dealt_reachable anyMessage). compute_done. }
  split; [vm_compute; reflexivity|].
  split; [vm_compute; reflexivity|].
  split; [vm_compute; reflexivity|].
  split.
  { exists (take 12 createDeck). split; [vm_compute; reflexivity|compute_done]. }
  split; [compute_done|].
  split; [vm_compute; reflexivity|].
  split; [vm_compute; reflexivity|].
  split; [vm_compute; reflexivity|].
  split; [vm_compute; reflexivity|].
  split; [vm_compute; reflexivity|].
  intros Hturn. vm_compute in Hturn. discriminate Hturn.
Qed.

(** C5 (amended): the turn-transfer law of [askForCard].  When the player
    whose turn it is holds a hand without the card and the target holds a
    hand:
    if the target's hand contains the card, the card leaves the target's
    hand, is appended to the asker's hand, every other hand is untouched and
    [currentTurn] is unchanged; if it does not, no hand changes and
    [currentTurn] becomes [players.indexOf(target)], which is the target's
    position whenever the target is a player. *)
Theorem askForCard_turn_transfer (c target : string) (card : Card) w g
    (askerHand targetHand : list Card) :
  games w !! c = Some g →
  hands g !! keyOf (at_index (players g) (currentTurn g)) = Some askerHand →
  card ∉ askerHand →
  hands g !! target = Some targetHand →
  let asker := keyOf (at_index (players g) (currentTurn g)) in
  ∃ g', games (askForCard c target card w).1 !! c = Some g'
    ∧ players g' = players g
    ∧ (card ∈ targetHand →
         hands g' !! target = Some (filter (λ x, x ≠ card) targetHand)
         ∧ hands g' !! asker = Some (askerHand ++ [card])
         ∧ (∀ p, p ≠ target → p ≠ asker → hands g' !! p = hands g !! p)
         ∧ currentTurn g' = currentTurn g)
    ∧ (card ∉ targetHand →
         hands g' = hands g
         ∧ currentTurn g' = indexOf target (players g)
         ∧ (target ∈ players g →
              at_index (players g') (currentTurn g') = Some target)).
Proof.
  intros Hg Ha Hnot Ht asker.
  unfold askForCard. rewrite (getGameState_session c w g Hg). cbv zeta.
  fold asker. fold asker in Ha.
  rewrite Ha, (proj2 (includes_false _ _) Hnot), Ht.
  destruct (includes card targetHand) eqn:Hinc.
  - apply includes_true in Hinc.
    assert (Hne : target ≠ asker) by (intros ->; congruence).
    rewrite sendViews_games. simpl. rewrite lookup_insert_eq.
    eexists. split; [reflexivity|]. split; [reflexivity|]. split; [|done].
    intros _. simpl. repeat split.
    + by rewrite lookup_alter_ne, lookup_insert_eq.
    + by rewrite lookup_alter_eq, lookup_insert_ne, Ha.
    + intros p Hpt Hpa. by rewrite lookup_alter_ne, lookup_insert_ne.
  - apply includes_false in Hinc.
    rewrite sendViews_games. simpl. rewrite lookup_insert_eq.
    eexists. split; [reflexivity|]. split; [reflexivity|]. split; [done|].
    intros _. simpl. repeat split.
    apply indexOf_nonneg_at.
Qed.

(** The turn-transfer law at the example table after the deal: Alice
    asks Bob for the 2 of diamonds, which he holds, and keeps the turn; had
    she asked Carol for it, the turn would pass to Carol. *)
Lemma askForCard_turn_transfer_witness :
  (∃ g', games (askForCard "ABC123" "Bob" "2♦" Table.dealt).1 !! "ABC123" = Some g'
         ∧ "2♦" ∈ default [] (hands g' !! "Alice")
         ∧ ("2♦" ∉ default [] (hands g' !! "Bob"))
         ∧ currentTurn g' = 0%Z)
  ∧ (∃ g', games (askForCard "ABC123" "Carol" "2♦" Table.dealt).1 !! "ABC123" = Some g'
         ∧ hands g' = hands (Table.session Table.dealt)
         ∧ currentTurn g' = 2%Z).
Proof.
  assert (Hd : games Table.dealt !! "ABC123" = Some (Table.session Table.dealt))
    by table_session.
  split.
  - destruct (askForCard_turn_transfer "ABC123" "Bob" "2♦" Table.dealt
                (Table.session Table.dealt)
                (take 12 createDeck) (take 12 (drop 12 createDeck)) Hd)
      as (g' & Hg' & _ & Hyes & _); try (vm_compute; reflexivity).
    { compute_done. }
    exists g'. split; [exact Hg'|].
    destruct Hyes as (HB & HA & _ & Hturn); [compute_done|].
    rewrite Hturn. split; [|split; [|vm_compute; reflexivity]].
    + replace (hands g' !! "Alice") with (Some (take 12 createDeck ++ ["2♦"])).
      compute_done.
    + rewrite HB. compute_done.
  - destruct (askForCard_turn_transfer "ABC123" "Carol" "2♦" Table.dealt
                (Table.session Table.dealt)
                (take 12 createDeck) (take 12 (drop 24 createDeck)) Hd)
      as (g' & Hg' & _ & _ & Hno); try (vm_compute; reflexivity).
    { compute_done. }
    exists g'. split; [exact Hg'|].
    destruct Hno as (HH & Hturn & _); [compute_done|].
    rewrite HH, Hturn. split; [reflexivity|vm_compute; reflexivity].
Defined.

End AskForCard.

(** ** makeClaim *)

Section MakeClaim.

Lemma suitCardsLength_halfSuit suit suitCards :
  halfSuit suit = Some suitCards →
  suitCardsLength suit = Some (Some (length suitCards)).
Proof. unfold suitCardsLength. by intros ->. Qed.

(** What [makeClaim] leaves in the store once the validation block has
    completed: the game-end test comes before the turn is advanced. *)
Lemma makeClaim_validated c suit assignments w g len g1 logMessage :
  games w !! c = Some g →
  suitCardsLength suit = Some len →
  validateClaim g suit len assignments = (g1, logMessage, Returned) →
  games (makeClaim c suit assignments w).1 !! c
  = Some (if 8 <=? length (team1 (claimedSuits g1)) + length (team2 (claimedSuits g1))
          then g1 else set_currentTurn (nextTurn g1) g1).
Proof.
  intros Hg Hs Hr. unfold makeClaim.
  rewrite (getGameState_session c w g Hg), Hs, Hr.
  destruct (8 <=? _) eqn:Hend.
  - simpl. by rewrite lookup_insert_eq.
  - rewrite sendViews_games. simpl. by rewrite lookup_insert_eq.
Qed.

Lemma makeClaim_resolved c suit assignments w g suitCards g1 logMessage :
  games w !! c = Some g →
  halfSuit suit = Some suitCards →
  resolveClaim g suit suitCards assignments = (g1, logMessage, Returned) →
  games (makeClaim c suit assignments w).1 !! c
  = Some (if 8 <=? length (team1 (claimedSuits g1)) + length (team2 (claimedSuits g1))
          then g1 else set_currentTurn (nextTurn g1) g1).
Proof.
  intros Hg Hs Hr.
  exact (makeClaim_validated _ _ _ _ _ _ _ _ Hg (suitCardsLength_halfSuit _ _ Hs) Hr).
Qed.

Lemma halfSuit_length suit suitCards :
  halfSuit suit = Some suitCards → length suitCards = 6.
Proof.
  unfold halfSuit, getHalfSuits. simpl.
  repeat (case_decide; [by intros [= <-]|]). done.
Qed.

(** C1 (as stated in the specification, refuted).  First, the validation
    only counts the assigned cards: at the example table Alice names six
    cards she holds, none of which is a low diamond, in a claim of
    low-diamonds; the claim does not fail, low-diamonds goes to her team and
    her hand loses the six cards.  Second, the turn does not always advance:
    in the (reachable) world where eight half-suits are claimed, an empty
    claim leaves [currentTurn] where it was. *)
Lemma makeClaim_incomplete_not_detected :
  let g := Table.session Table.dealt in
  let g' := Table.session
              (handleMessage Table.ch
                 (MakeClaim "ABC123" "low-diamonds" [("Alice", Table.lowHearts)])
                 Table.dealt) in
  let f := Table.session Table.finished in
  let f' := Table.session
              (handleMessage Table.ch (MakeClaim "ABC123" "low-hearts" [])
                 Table.finished) in
  (halfSuit "low-diamonds" = Some ["2♦"; "3♦"; "4♦"; "5♦"; "6♦"; "7♦"]
   ∧ claimedSuits g = noTeams
   ∧ claimedSuits g' = {| team1 := ["low-diamonds"]; team2 := [] |}
   ∧ hands g !! "Alice" = Some (take 12 createDeck)
   ∧ hands g' !! "Alice" = Some (take 6 (drop 6 createDeck))
   ∧ ¬ (claimedSuits g' = claimedSuits g ∧ hands g' = hands g))
  ∧ (reachable Table.finished
     ∧ length (team1 (claimedSuits f)) + length (team2 (claimedSuits f)) = 8
     ∧ currentTurn f = 3%Z ∧ nextTurn f = 0%Z ∧ currentTurn f' = 3%Z
     ∧ ¬ (currentTurn f' = nextTurn f)).
Proof.
  split.
  - split; [vm_compute; reflexivity|].
    split; [vm_compute; reflexivity|].
    split; [vm_compute; reflexivity|].
    split; [vm_compute; reflexivity|].
    split; [vm_compute; reflexivity|].
    intros [Hcs _]. vm_compute in Hcs. discriminate Hcs.
  - split.
    { apply run_reachable; [|compute_done].
      apply (Table_dealt_reachable anyMessage). compute_done. }
    split; [vm_compute; reflexivity|].
    split; [vm_compute; reflexivity|].
    split; [vm_compute; reflexivity|].
    split; [vm_compute; reflexivity|].
    intros Hturn. vm_compute in Hturn. discriminate Hturn.
Qed.

(** C1 (amended): when the number of assigned cards, counted over all
    entries of [assignments], differs from the 6 cards of the named
    half-suit, the claim fails as incomplete: the log line says that not all
    cards were assigned, no half-suit is awarded and no hand is changed; and
    [currentTurn] advances to the next player provided fewer than 8
    half-suits are claimed (with 8 or more claimed the game-end path runs
    instead and the turn stays). *)
Theorem makeClaim_incomplete (c suit : string)
    (assignments : list (string * list Card)) w g (suitCards : list Card) :
  games w !! c = Some g →
  halfSuit suit = Some suitCards →
  length (concat (map snd assignments)) ≠ 6 →
  let total := length (team1 (claimedSuits g)) + length (team2 (claimedSuits g)) in
  resolveClaim g suit suitCards assignments
  = (g, keyOf (at_index (players g) (currentTurn g)) +:+ " failed to claim "
          +:+ suit +:+ " - not all cards assigned", Returned)
  ∧ ∃ g', games (makeClaim c suit assignments w).1 !! c = Some g'
      ∧ claimedSuits g' = claimedSuits g
      ∧ hands g' = hands g
      ∧ (total < 8 → currentTurn g' = nextTurn g)
      ∧ (8 ≤ total → currentTurn g' = currentTurn g).
Proof.
  intros Hg Hs Hlen total.
  assert (Hr : resolveClaim g suit suitCards assignments
    = (g, keyOf (at_index (players g) (currentTurn g)) +:+ " failed to claim "
            +:+ suit +:+ " - not all cards assigned", Returned)).
  { unfold resolveClaim, validateClaim, sameLength.
    rewrite (halfSuit_length _ _ Hs).
    by rewrite (proj2 (Nat.eqb_neq _ _) Hlen). }
  split; [exact Hr|].
  rewrite (makeClaim_resolved _ _ _ _ _ _ _ _ Hg Hs Hr). fold total.
  eexists. split; [reflexivity|].
  destruct (8 <=? total) eqn:Hend.
  - apply Nat.leb_le in Hend.
    split; [done|]. split; [done|]. split; [intros; lia|done].
  - apply Nat.leb_gt in Hend.
    split; [done|]. split; [done|]. split; [done|intros; lia].
Qed.

(** An incomplete claim at the example table: Alice claims low-hearts but
    leaves out the 7; nothing is awarded or removed and the turn moves on to
    Bob. *)
Lemma makeClaim_incomplete_witness :
  ∃ g', games (makeClaim "ABC123" "low-hearts"
                 [("Alice", ["2♥"; "3♥"; "4♥"; "5♥"; "6♥"])] Table.dealt).1
          !! "ABC123" = Some g'
        ∧ claimedSuits g' = noTeams
        ∧ hands g' = hands (Table.session Table.dealt)
        ∧ currentTurn g' = 1%Z.
Proof.
  assert (Hd : games Table.dealt !! "ABC123" = Some (Table.session Table.dealt))
    by table_session.
  destruct (makeClaim_incomplete "ABC123" "low-hearts"
              [("Alice", ["2♥"; "3♥"; "4♥"; "5♥"; "6♥"])] Table.dealt
              (Table.session Table.dealt) Table.lowHearts Hd)
    as (_ & g' & Hg' & Hcs & Hh & Hturn & _).
  { vm_compute; reflexivity. }
  { compute_done. }
  exists g'. split; [exact Hg'|]. rewrite Hcs, Hh, Hturn; [|compute_done].
  repeat split; vm_compute; reflexivity.
Defined.

Lemma readHand_hand (h : gmap string (list Card)) p hand :
  h !! p = Some hand → readHand h p = Hand hand.
Proof. unfold readHand. by intros ->. Qed.

Lemma cardsCorrect_held slot (cards : list Card) :
  (∀ card, card ∈ cards → ∃ hand, slot = Hand hand ∧ card ∈ hand) →
  cardsCorrect slot cards = Some true.
Proof.
  induction cards as [|card rest IH]; intros Hheld; [done|]. simpl.
  destruct (Hheld card) as (hand & -> & Hc); [by left|].
  rewrite (proj2 (includes_true _ _) Hc).
  apply IH. intros x Hx. apply Hheld. by right.
Qed.

Lemma allCorrect_held (h : gmap string (list Card))
    (assignments : list (string * list Card)) :
  (∀ player cards card, (player, cards) ∈ assignments → card ∈ cards →
     ∃ hand, h !! player = Some hand ∧ card ∈ hand) →
  allCorrect h assignments = Some true.
Proof.
  induction assignments as [|[player cards] rest IH]; intros Hheld; [done|].
  simpl. rewrite cardsCorrect_held.
  - rewrite IH; [done|]. intros p cs x Hin. apply Hheld. by right.
  - intros card Hcard.
    destruct (Hheld player cards card (list_elem_of_here _ _) Hcard)
      as (hand & Hh & Hc).
    exists hand. split; [by apply readHand_hand|done].
Qed.

Lemma allSameTeam_spans (ts : Teams) (assignments : list (string * list Card)) p q :
  p ∈ map fst assignments → q ∈ map fst assignments →
  p ∉ team2 ts → q ∉ team1 ts →
  allSameTeam ts assignments = false.
Proof.
  intros Hp Hq Hp2 Hq1. unfold allSameTeam.
  apply not_true_is_false. intros Hall.
  rewrite forallb_forall in Hall.
  apply list_elem_of_In in Hp, Hq.
  destruct (teamOf ts (head (map fst assignments))).
  - specialize (Hall q Hq). rewrite (proj2 (includes_false _ _) Hq1) in Hall.
    simpl in Hall. rewrite andb_false_r in Hall. done.
  - specialize (Hall p Hp). rewrite (proj2 (includes_false _ _) Hp2) in Hall.
    simpl in Hall. rewrite andb_false_r in Hall. done.
Qed.

(** C6: the claim-uniformity law.  When the assigned cards are exactly the
    six cards of the named half-suit, every assigned card is in the hand of
    the player it is assigned to, and the named players include one of each
    team (the two teams having no member in common, as in every reachable
    world), then the half-suit
    name is pushed on the claimed list of the opposite of the claimer's
    team, a team that does not contain the claimer; the other claimed list
    and every hand are left as they were. *)
Theorem makeClaim_cross_team (c suit : string)
    (assignments : list (string * list Card)) w g (suitCards : list Card)
    (p q : string) :
  games w !! c = Some g →
  halfSuit suit = Some suitCards →
  concat (map snd assignments) ≡ₚ suitCards →
  (∀ player cards card, (player, cards) ∈ assignments → card ∈ cards →
     ∃ hand, hands g !! player = Some hand ∧ card ∈ hand) →
  (∀ x, x ∈ team1 (teams g) → x ∉ team2 (teams g)) →
  p ∈ map fst assignments → p ∈ team1 (teams g) →
  q ∈ map fst assignments → q ∈ team2 (teams g) →
  let claimer := at_index (players g) (currentTurn g) in
  let awarded := oppositeOf (teamOf (teams g) claimer) in
  ∃ g', games (makeClaim c suit assignments w).1 !! c = Some g'
    ∧ claimedSuits g' = pushTeam awarded suit (claimedSuits g)
    ∧ getTeam awarded (claimedSuits g') = getTeam awarded (claimedSuits g) ++ [suit]
    ∧ getTeam (oppositeOf awarded) (claimedSuits g')
      = getTeam (oppositeOf awarded) (claimedSuits g)
    ∧ (∀ name, claimer = Some name → name ∉ getTeam awarded (teams g))
    ∧ hands g' = hands g.
Proof.
  intros Hg Hs Hperm Hheld Hdisj Hp Hp1 Hq Hq2 claimer awarded.
  assert (Hr : resolveClaim g suit suitCards assignments
    = (set_claimedSuits (pushTeam awarded suit (claimedSuits g)) g,
       keyOf claimer +:+ " failed claim on " +:+ suit +:+ ". "
         +:+ teamKey awarded +:+ " gets the suit!", Returned)).
  { unfold resolveClaim, validateClaim, sameLength.
    rewrite (Permutation_length Hperm), Nat.eqb_refl.
    rewrite (allCorrect_held _ _ Hheld).
    rewrite (allSameTeam_spans _ _ p q); try done.
    - by apply Hdisj.
    - intros Hq1. by apply (Hdisj q). }
  rewrite (makeClaim_resolved _ _ _ _ _ _ _ _ Hg Hs Hr).
  eexists. split; [reflexivity|].
  assert (Hcl : ∀ name, claimer = Some name → name ∉ getTeam awarded (teams g)).
  { intros name Hname. unfold awarded. rewrite Hname. simpl.
    destruct (includes name (team1 (teams g))) eqn:Hin; simpl.
    - apply includes_true in Hin. by apply Hdisj.
    - by apply includes_false in Hin. }
  destruct (8 <=? _); simpl; (split; [done|]);
    (split; [by destruct awarded|]); (split; [by destruct awarded|]); done.
Qed.

(** A cross-team claim at the example table: Alice (team 1) claims
    low-hearts naming herself for all six cards and Bob (team 2) for none;
    team 2 gets the half-suit and Alice keeps her cards. *)
Lemma makeClaim_cross_team_witness :
  ∃ g', games (makeClaim "ABC123" "low-hearts"
                 [("Alice", Table.lowHearts); ("Bob", [])] Table.dealt).1
          !! "ABC123" = Some g'
        ∧ claimedSuits g' = {| team1 := []; team2 := ["low-hearts"] |}
        ∧ hands g' = hands (Table.session Table.dealt).
Proof.
  assert (Hd : games Table.dealt !! "ABC123" = Some (Table.session Table.dealt))
    by table_session.
  destruct (makeClaim_cross_team "ABC123" "low-hearts"
              [("Alice", Table.lowHearts); ("Bob", [])] Table.dealt
              (Table.session Table.dealt) Table.lowHearts "Alice" "Bob" Hd)
    as (g' & Hg' & Hcs & _ & _ & _ & Hh).
  { vm_compute; reflexivity. }
  { vm_compute. reflexivity. }
  { clear Hd. intros player cards card Hin Hcard.
    apply elem_of_cons in Hin as [[= -> ->]|Hin].
    - exists (take 12 createDeck). split; [vm_compute; reflexivity|].
      assert (Hsub : Forall (λ x, x ∈ take 12 createDeck) Table.lowHearts)
        by compute_done.
      rewrite Forall_forall in Hsub. by apply Hsub.
    - apply list_elem_of_singleton in Hin as [= -> ->].
      by apply elem_of_nil in Hcard. }
  { clear Hd.
    assert (Hdisj : Forall (λ x, x ∉ team2 (teams (Table.session Table.dealt)))
                      (team1 (teams (Table.session Table.dealt))))
      by compute_done.
    rewrite Forall_forall in Hdisj. exact Hdisj. }
  { compute_done. }
  { compute_done. }
  { compute_done. }
  { compute_done. }
  exists g'. split; [exact Hg'|]. rewrite Hcs, Hh.
  split; [vm_compute; reflexivity|reflexivity].
Defined.

End MakeClaim.

(** ** getPlayerView *)

Section PlayerView.


Lemma viewHands_returns g A ps acc :
  (∀ p, p ∈ ps → p ≠ A → is_Some (hands g !! p) ∨ is_Some (inherited p)) →
  is_Some (viewHands g A ps acc).
Proof.
  revert acc. induction ps as [|x ps IH]; intros acc Hall; simpl; [by eexists|].
  assert (Hrest : ∀ acc', is_Some (viewHands g A ps acc')).
  { intros acc'. apply IH. intros p Hin. apply Hall. by right. }
  case_decide as Hx; [apply Hrest|].
  unfold readHand. destruct (Hall x) as [[h ->]|[m Hm]]; [by left|done| |].
  - apply Hrest.
  - destruct (hands g !! x); [apply Hrest|]. rewrite Hm.
    destruct m; apply Hrest.
Qed.





End PlayerView.

(** ** Every handler, seen from one session *)

Section Sessions.

Lemma handleMessage_games ch m w :
  games (handleMessage ch m w) = games (dispatch ch m w).1.
Proof. unfold handleMessage. by destruct (dispatch ch m w) as [w' []]. Qed.

(** A session found in the store after a message was handled is either the
    one that was there before, or the one [createGame] just stored, or the
    result of one [sessionStep] on the session the message was sent to. *)
Lemma handleMessage_session ch m w c g' :
  games (handleMessage ch m w) !! c = Some g' →
  games w !! c = Some g'
  ∨ (∃ name, m = CreateGame name ∧ c = newCode ch ∧ g' = newSession ch name)
  ∨ (∃ g, games w !! c = Some g ∧ targetOf m = Some c ∧ sessionStep ch g m g').
Proof.
  rewrite handleMessage_games.
  destruct m as [name|c0 name|c0 random|c0|c0 target card|c0 suit a|c0 name|ty];
    simpl; try (by left).
  - (* createGame *)
    destruct (decide (c = newCode ch)) as [->|Hne].
    + rewrite lookup_insert_eq. intros [= <-]. right. left. by exists name.
    + rewrite lookup_insert_ne by done. by left.
  - (* joinGame *)
    unfold joinGame.
    destruct (getGameState c0 w) as [g| |] eqn:Hgs; [|by left|by left].
    apply getGameState_found in Hgs as Hg.
    destruct (includes name (players g)) eqn:Hinc; [by left|].
    destruct (12 <=? length (players g)); [by left|]. simpl.
    destruct (decide (c = c0)) as [->|Hne].
    + rewrite lookup_insert_eq. intros [= <-]. right. right.
      exists g. repeat split; [done|]. constructor. by apply includes_false.
    + rewrite lookup_insert_ne by done. by left.
  - (* assignTeams *)
    unfold assignTeams.
    destruct (getGameState c0 w) as [g| |] eqn:Hgs; [|by left|by left].
    apply getGameState_found in Hgs as Hg.
    destruct (length (players g) <? 4); [by left|]. simpl.
    destruct (decide (c = c0)) as [->|Hne].
    + rewrite lookup_insert_eq. intros [= <-]. right. right.
      exists g. repeat split; [done|]. constructor.
    + rewrite lookup_insert_ne by done. by left.
  - (* startGame *)
    unfold startGame.
    destruct (getGameState c0 w) as [g| |] eqn:Hgs; [|by left|by left].
    apply getGameState_found in Hgs as Hg.
    destruct (started g) eqn:Hst; [by left|].
    rewrite sendViews_games. simpl.
    destruct (decide (c = c0)) as [->|Hne].
    + rewrite lookup_insert_eq. intros [= <-]. right. right.
      exists g. repeat split; [done|]. by constructor.
    + rewrite lookup_insert_ne by done. by left.
  - (* askForCard *)
    unfold askForCard.
    destruct (getGameState c0 w) as [g| |] eqn:Hgs; [|by left|by left].
    apply getGameState_found in Hgs as Hg.
    destruct (hands g !! _) as [askerHand|] eqn:Ha; [|by left].
    destruct (includes card askerHand) eqn:Hown; [by left|].
    destruct (hands g !! target) as [targetHand|] eqn:Ht; [|by left].
    destruct (includes card targetHand) eqn:Hhas;
      rewrite sendViews_games; simpl;
      (destruct (decide (c = c0)) as [->|Hne];
       [rewrite lookup_insert_eq; intros [= <-]; right; right;
        exists g; repeat split; [done|]
       |rewrite lookup_insert_ne by done; by left]).
    + eapply step_ask_yes; eauto.
      * by apply includes_false.
      * by apply includes_true.
    + constructor.
  - (* makeClaim *)
    unfold makeClaim.
    destruct (getGameState c0 w) as [g| |] eqn:Hgs; [|by left|by left].
    apply getGameState_found in Hgs as Hg.
    destruct (suitCardsLength suit) as [len|]; [|by left].
    destruct (validateClaim g suit len a) as [[g1 logMessage] completion] eqn:Hr.
    destruct completion.
    + destruct (8 <=? _).
      * simpl. destruct (decide (c = c0)) as [->|Hne].
        -- rewrite lookup_insert_eq. intros [= <-]. right. right.
           exists g. repeat split; [done|]. eapply step_claim; eauto.
        -- rewrite lookup_insert_ne by done. by left.
      * rewrite sendViews_games. simpl.
        destruct (decide (c = c0)) as [->|Hne].
        -- rewrite lookup_insert_eq. intros [= <-]. right. right.
           exists g. repeat split; [done|]. eapply step_claim_turn; eauto.
        -- rewrite !lookup_insert_ne by done. by left.
    + simpl. destruct (decide (c = c0)) as [->|Hne].
      * rewrite lookup_insert_eq. intros [= <-]. right. right.
        exists g. repeat split; [done|]. eapply step_claim; eauto.
      * rewrite lookup_insert_ne by done. by left.
Qed.

End Sessions.

(** ** The claimed half-suits *)

Section ClaimedSuits.

Lemma validateClaim_claimed g suit len a g1 logMessage completion :
  validateClaim g suit len a = (g1, logMessage, completion) →
  claimedSuits g1 = claimedSuits g
  ∨ ∃ t, claimedSuits g1 = pushTeam t suit (claimedSuits g).
Proof.
  unfold validateClaim.
  destruct (sameLength _ _); [|intros [= <- _ _]; by left].
  destruct (allCorrect _ _) as [[|]|];
    [|intros [= <- _ _]; by left|intros [= <- _ _]; by left].
  destruct (allSameTeam _ _).
  - simpl. destruct (removeClaimed a (hands g)) as [h cpl].
    intros [= <- _ _]. right. by eexists.
  - intros [= <- _ _]. right. by eexists.
Qed.

Lemma sessionStep_claimed ch g m g' :
  sessionStep ch g m g' →
  claimedSuits g' = claimedSuits g
  ∨ ∃ c suit a t, m = MakeClaim c suit a
                  ∧ claimedSuits g' = pushTeam t suit (claimedSuits g).
Proof.
  destruct 1 as [| | | | |c suit a len g1 lg cpl Hr|c suit a len g1 lg cpl Hr];
    try (by left).
  - destruct (validateClaim_claimed _ _ _ _ _ _ _ Hr) as [->|[t ->]]; [by left|].
    right. by exists c, suit, a, t.
  - simpl. destruct (validateClaim_claimed _ _ _ _ _ _ _ Hr) as [->|[t ->]]; [by left|].
    right. by exists c, suit, a, t.
Qed.

Lemma halfSuit_named suit :
  is_Some (halfSuit suit) → suit ∈ map fst getHalfSuits.
Proof.
  unfold halfSuit. induction getHalfSuits as [|[name cards] rest IH]; simpl.
  - by intros [? [=]].
  - case_decide as Hn; [subst; intros _; by left|].
    intros H. right. by apply IH.
Qed.

Lemma wellClaimed_push t suit cs :
  wellClaimed cs → is_Some (halfSuit suit) →
  suit ∉ team1 cs → suit ∉ team2 cs →
  wellClaimed (pushTeam t suit cs).
Proof.
  intros [Hnd Hnames] Hsuit H1 H2.
  assert (Hperm : team1 (pushTeam t suit cs) ++ team2 (pushTeam t suit cs)
                  ≡ₚ suit :: team1 cs ++ team2 cs).
  { destruct t; simpl.
    - rewrite <- app_assoc. simpl. symmetry. apply Permutation_middle.
    - rewrite app_assoc. symmetry. apply Permutation_cons_append. }
  split.
  - rewrite Hperm. apply NoDup_cons. split; [|done].
    rewrite elem_of_app. tauto.
  - intros s Hs. rewrite Hperm in Hs.
    apply elem_of_cons in Hs as [->|Hs]; [done|by apply Hnames].
Qed.

Lemma wellClaimed_reachable w c g :
  reachableWhen freshClaims w → games w !! c = Some g →
  wellClaimed (claimedSuits g).
Proof.
  intros Hw. revert c g.
  induction Hw as [|w ch m Hw IH Hfresh Hch|w pid gc out Hw IH|w c0 Hw IH Hin];
    intros c g Hg.
  - simpl in Hg. by rewrite lookup_empty in Hg.
  - apply handleMessage_session in Hg
      as [Hg|[(name & -> & -> & ->)|(g0 & Hg0 & Htarget & Hstep)]].
    + by apply (IH c).
    + split; [constructor|]. intros s Hs. by apply elem_of_nil in Hs.
    + specialize (IH c g0 Hg0).
      destruct (sessionStep_claimed _ _ _ _ Hstep)
        as [->|(c1 & suit & a & t & -> & ->)]; [done|].
      simpl in Htarget. injection Htarget as ->.
      destruct Hfresh as [Hsuit Hnew]. rewrite Hg0 in Hnew.
      destruct Hnew. by apply wellClaimed_push.
  - by apply (IH c).
  - simpl in Hg. apply lookup_delete_Some in Hg as [_ Hg]. by apply (IH c).
Qed.

(** C2 (as stated in the specification, refuted): at the example table,
    after a claim that names both teams, the eight regular claims and one
    more claim once the game has ended, low-hearts stands in the claimed
    lists of both teams and nine half-suits are claimed in all.  The world
    is reachable. *)
Lemma claimedSuits_overlap_reachable :
  let cs := claimedSuits (Table.session Table.overclaimed) in
  reachable Table.overclaimed
  ∧ (claimedSuits <$> games Table.overclaimed !! "ABC123") = Some cs
  ∧ "low-hearts" ∈ team1 cs ∧ "low-hearts" ∈ team2 cs
  ∧ length (team1 cs) + length (team2 cs) = 9
  ∧ ¬ ((∀ s, s ∈ team1 cs → s ∉ team2 cs)
       ∧ length (team1 cs) + length (team2 cs) ≤ 8).
Proof.
  intros cs. split; [|split; [|split; [|split; [|split]]]].
  - apply run_reachable; [|compute_done].
    apply (Table_dealt_reachable anyMessage). compute_done.
  - vm_compute. reflexivity.
  - compute_done.
  - compute_done.
  - vm_compute. reflexivity.
  - intros [_ Hle]. vm_compute in Hle. lia.
Qed.

(** C2 (amended): as long as every [makeClaim] names one of the eight
    half-suits and one that is in neither team's claimed list when the
    message arrives, in every reachable state the two claimed lists have no
    name in common and hold at most 8 names together. *)
Theorem claimedSuits_disjoint_when_fresh w (c : string) g :
  reachableWhen freshClaims w → games w !! c = Some g →
  (∀ s, s ∈ team1 (claimedSuits g) → s ∉ team2 (claimedSuits g))
  ∧ length (team1 (claimedSuits g)) + length (team2 (claimedSuits g)) ≤ 8.
Proof.
  intros Hw Hg. destruct (wellClaimed_reachable w c g Hw Hg) as [Hnd Hnames].
  split.
  - apply NoDup_app in Hnd as (_ & Hdisj & _). exact Hdisj.
  - rewrite <- length_app.
    change 8 with (length (map fst getHalfSuits)).
    apply submseteq_length, NoDup_submseteq; [done|].
    intros s Hs. by apply halfSuit_named, Hnames.
Qed.

(** Disjointness at the example table once the eight regular claims are
    made, four half-suits to each team. *)
Lemma claimedSuits_disjoint_when_fresh_witness :
  let cs := claimedSuits (Table.session Table.finished) in
  (∀ s, s ∈ team1 cs → s ∉ team2 cs)
  ∧ length (team1 cs) + length (team2 cs) ≤ 8.
Proof.
  apply (claimedSuits_disjoint_when_fresh Table.finished "ABC123").
  - apply run_reachable; [|compute_done].
    apply (Table_dealt_reachable freshClaims). compute_done.
  - vm_compute. reflexivity.
Defined.

End ClaimedSuits.

(** ** Counting cards *)

Section Cards.

Implicit Types (h : gmap string (list string)) (ps : list string).

Lemma size_list_to_set_disj (l : list string) :
  size (list_to_set_disj l : gmultiset string) = length l.
Proof.
  induction l as [|x l IH]; [done|].
  rewrite list_to_set_disj_cons, gmultiset_size_disj_union,
    gmultiset_size_singleton. simpl. by rewrite IH.
Qed.

Lemma submseteq_list_to_set_disj (l k : list string) :
  l ⊆+ k → list_to_set_disj l ⊆@{gmultiset string} list_to_set_disj k.
Proof.
  intros [k' Hk]%submseteq_Permutation.
  rewrite Hk, list_to_set_disj_app. multiset_solver.
Qed.

Lemma multiplicity_NoDup (l : list string) x :
  NoDup l → multiplicity x (list_to_set_disj l : gmultiset string) ≤ 1.
Proof.
  induction 1 as [|y l Hy Hnd IH].
  { rewrite list_to_set_disj_nil, multiplicity_empty. lia. }
  rewrite list_to_set_disj_cons, multiplicity_disj_union.
  destruct (decide (x = y)) as [->|Hne].
  - rewrite multiplicity_singleton_eq.
    assert (multiplicity y (list_to_set_disj l : gmultiset string) = 0); [|lia].
    apply not_elem_of_multiplicity. by rewrite elem_of_list_to_set_disj.
  - rewrite multiplicity_singleton_ne by done. lia.
Qed.

Lemma filter_ne_absent (c : string) (l : list string) :
  c ∉ l → filter (λ x, x ≠ c) l = l.
Proof.
  induction l as [|x l IH]; [done|].
  intros [Hne Hnin]%not_elem_of_cons.
  rewrite filter_cons_True by done. by rewrite IH.
Qed.

(** Taking the one copy of a card out of a hand. *)
Lemma take_card_out (c : string) (l : list string) :
  multiplicity c (list_to_set_disj l : gmultiset string) ≤ 1 → c ∈ l →
  list_to_set_disj l
  =@{gmultiset string} {[+ c +]} ⊎ list_to_set_disj (filter (λ x, x ≠ c) l).
Proof.
  induction l as [|x l IH]; intros Hm Hin; [by apply elem_of_nil in Hin|].
  rewrite list_to_set_disj_cons in *. rewrite multiplicity_disj_union in Hm.
  destruct (decide (x = c)) as [->|Hne].
  - rewrite multiplicity_singleton_eq in Hm.
    rewrite filter_cons_False by (intros H; by apply H).
    rewrite filter_ne_absent; [done|].
    intros Hc. apply (proj2 (elem_of_list_to_set_disj c l)) in Hc.
    rewrite elem_of_multiplicity in Hc. lia.
  - rewrite filter_cons_True by done. rewrite list_to_set_disj_cons.
    apply elem_of_cons in Hin as [->|Hin]; [done|].
    rewrite IH; [multiset_solver| lia |done].
Qed.

Lemma handsOf_cons h p ps :
  handsOf h (p :: ps) = default [] (h !! p) ++ handsOf h ps.
Proof. done. Qed.

Lemma handsOf_app h ps qs : handsOf h (ps ++ qs) = handsOf h ps ++ handsOf h qs.
Proof. unfold handsOf. by rewrite map_app, concat_app. Qed.

Lemma handsOf_insert_notin h p x ps :
  p ∉ ps → handsOf (<[p := x]> h) ps = handsOf h ps.
Proof.
  induction ps as [|q ps IH]; [done|].
  intros [Hne Hnin]%not_elem_of_cons.
  rewrite !handsOf_cons, lookup_insert_ne by done. by rewrite IH.
Qed.

(** Replacing one player's hand swaps exactly that hand in the total. *)
Lemma handsOf_insert h p x ps :
  NoDup ps → p ∈ ps →
  list_to_set_disj (handsOf (<[p := x]> h) ps)
    ⊎ list_to_set_disj (default [] (h !! p))
  =@{gmultiset string} list_to_set_disj (handsOf h ps) ⊎ list_to_set_disj x.
Proof.
  induction 1 as [|q ps Hq Hnd IH]; intros Hmem; [by apply elem_of_nil in Hmem|].
  rewrite !handsOf_cons, !list_to_set_disj_app.
  destruct (decide (q = p)) as [->|Hne].
  - rewrite lookup_insert_eq, handsOf_insert_notin by done. simpl.
    clear Hmem. multiset_solver.
  - rewrite lookup_insert_ne by done.
    apply elem_of_cons in Hmem as [->|Hmem]; [done|].
    specialize (IH Hmem). multiset_solver.
Qed.

Lemma handsOf_part h p x ps :
  p ∈ ps → h !! p = Some x →
  list_to_set_disj x ⊆@{gmultiset string} list_to_set_disj (handsOf h ps).
Proof.
  induction ps as [|q ps IH]; intros Hmem Hx; [by apply elem_of_nil in Hmem|].
  rewrite handsOf_cons, list_to_set_disj_app.
  destruct (decide (q = p)) as [->|Hne].
  - rewrite Hx. simpl. clear Hmem. multiset_solver.
  - apply elem_of_cons in Hmem as [->|Hmem]; [done|].
    specialize (IH Hmem Hx). multiset_solver.
Qed.

End Cards.

(** ** Dealing and removing *)

Section DealAndRemove.

Implicit Types (h : gmap string (list string)) (ps : list string).

Lemma deal_lookup_is_Some deck cpp i ps h p :
  is_Some (deal deck cpp i ps h !! p) → p ∈ ps ∨ is_Some (h !! p).
Proof.
  destruct (decide (p ∈ ps)) as [Hin|Hnin]; [by left|].
  rewrite deal_lookup_notin by done. by right.
Qed.

(** The hands dealt, laid end to end in player order, are the top of the
    deck. *)
Lemma handsOf_deal deck cpp i ps h :
  NoDup ps →
  handsOf (deal deck cpp i ps h) ps = take (length ps * cpp) (drop (i * cpp) deck).
Proof.
  intros Hnd. revert i h. induction Hnd as [|p ps Hp Hnd IH]; intros i h.
  { done. }
  simpl deal. rewrite handsOf_cons, deal_lookup_notin, lookup_insert_eq by done.
  rewrite IH. simpl default. unfold slice.
  replace ((i + 1) * cpp - i * cpp) with cpp by lia.
  replace (S i * cpp) with (i * cpp + cpp) by lia.
  rewrite <- drop_drop, take_take_drop. done.
Qed.

Lemma removeClaimed_dom a h h' completion :
  removeClaimed a h = (h', completion) →
  ∀ p, is_Some (h' !! p) ↔ is_Some (h !! p).
Proof.
  revert h. induction a as [|[player cards] rest IH]; intros h; simpl.
  { by intros [= <- _]. }
  destruct (h !! player) as [hand|] eqn:Hhand; [|by intros [= <- _]].
  intros Hrec p. rewrite (IH _ Hrec p).
  destruct (decide (player = p)) as [->|Hne].
  - rewrite lookup_insert_eq, Hhand. split; by eexists.
  - by rewrite lookup_insert_ne.
Qed.

Lemma removeClaimed_cards a h h' completion ps :
  NoDup ps → removeClaimed a h = (h', completion) →
  list_to_set_disj (handsOf h' ps)
  ⊆@{gmultiset string} list_to_set_disj (handsOf h ps).
Proof.
  intros Hnd. revert h. induction a as [|[player cards] rest IH]; intros h; simpl.
  { by intros [= <- _]. }
  destruct (h !! player) as [hand|] eqn:Hhand; [|by intros [= <- _]].
  intros Hrec. specialize (IH _ Hrec).
  destruct (decide (player ∈ ps)) as [Hin|Hnin].
  - pose proof (handsOf_insert h player (filter (λ c, c ∉ cards) hand) ps Hnd Hin)
      as Hswap.
    rewrite Hhand in Hswap. simpl in Hswap.
    pose proof (submseteq_list_to_set_disj _ _
                  (sublist_submseteq _ _ (sublist_filter (λ c, c ∉ cards) hand)))
      as Hsub.
    clear Hin. multiset_solver.
  - by rewrite handsOf_insert_notin in IH.
Qed.

Lemma validateClaim_frame g suit len a g1 logMessage completion :
  validateClaim g suit len a = (g1, logMessage, completion) →
  players g1 = players g ∧ started g1 = started g
  ∧ (hands g1 = hands g
     ∨ ∃ completion', removeClaimed a (hands g) = (hands g1, completion')).
Proof.
  unfold validateClaim.
  destruct (sameLength _ _); [|intros [= <- _ _]; by auto].
  destruct (allCorrect _ _) as [[|]|];
    [|intros [= <- _ _]; by auto|intros [= <- _ _]; by auto].
  destruct (allSameTeam _ _).
  - simpl. destruct (removeClaimed a (hands g)) as [h cpl] eqn:Hrem.
    intros [= <- _ _]. simpl. repeat split. right. by exists cpl.
  - intros [= <- _ _]. by auto.
Qed.

Lemma alter_as_insert h (f : list string → list string) p x :
  h !! p = Some x → alter f p h = <[p := f x]> h.
Proof.
  intros Hp. apply map_eq. intros q.
  destruct (decide (p = q)) as [->|Hne].
  - by rewrite lookup_alter_eq, lookup_insert_eq, Hp.
  - by rewrite lookup_alter_ne, lookup_insert_ne.
Qed.

Lemma sessionStep_tidy ch g m g' :
  tidy g → sessionStep ch g m g' → tidy g'.
Proof.
  intros (Hnd & Hdom & Hlobby).
  destruct 1 as [c name Hname|c random order|c Hst
                |c target card asker ha ht Ha Hnot Ht Hhas|c target card turn
                |c suit a len g1 lg cpl Hr|c suit a len g1 lg cpl Hr].
  - split; [|split]; simpl; [|intros p Hp; apply elem_of_app; left; by apply Hdom|done].
    apply NoDup_app. split; [done|]. split; [|apply NoDup_singleton].
    intros x Hx ->%list_elem_of_singleton. done.
  - done.
  - split; [done|]. split; [|done]. simpl. intros p Hp.
    apply deal_lookup_is_Some in Hp as [Hp|Hp]; [done|by apply Hdom].
  - split; [done|]. split; simpl.
    + intros p Hp. apply Hdom.
      rewrite (alter_as_insert _ _ _ ha) in Hp.
      2:{ rewrite lookup_insert_ne; [done|]. intros ->. congruence. }
      apply lookup_insert_is_Some' in Hp as [->|Hp]; [by eexists|].
      apply lookup_insert_is_Some' in Hp as [->|Hp]; [by eexists|done].
    + intros Hst. rewrite (Hlobby Hst), lookup_empty in Ha. done.
  - done.
  - destruct (validateClaim_frame _ _ _ _ _ _ _ Hr) as (Hp & Hst & [Hh|[cpl' Hh]]).
    + unfold tidy. by rewrite Hp, Hst, Hh.
    + unfold tidy. rewrite Hp, Hst. split; [done|]. split.
      * intros p Hsome. apply Hdom. by apply (removeClaimed_dom _ _ _ _ Hh).
      * intros Hlob. apply map_eq. intros p. rewrite lookup_empty.
        apply eq_None_not_Some. intros Hsome.
        apply (removeClaimed_dom _ _ _ _ Hh) in Hsome.
        rewrite (Hlobby Hlob), lookup_empty in Hsome. by destruct Hsome.
  - destruct (validateClaim_frame _ _ _ _ _ _ _ Hr) as (Hp & Hst & [Hh|[cpl' Hh]]).
    + unfold tidy. simpl. by rewrite Hp, Hst, Hh.
    + unfold tidy. simpl. rewrite Hp, Hst. split; [done|]. split.
      * intros p Hsome. apply Hdom. by apply (removeClaimed_dom _ _ _ _ Hh).
      * intros Hlob. apply map_eq. intros p. rewrite lookup_empty.
        apply eq_None_not_Some. intros Hsome.
        apply (removeClaimed_dom _ _ _ _ Hh) in Hsome.
        rewrite (Hlobby Hlob), lookup_empty in Hsome. by destruct Hsome.
Qed.

End DealAndRemove.

(** ** The books balance *)

Section Books.

Lemma NoDup_createDeck : NoDup createDeck.
Proof. compute_done. Qed.

Lemma length_createDeck : length createDeck = 48.
Proof. reflexivity. Qed.

Lemma cardsIn_hands g g' :
  players g' = players g → hands g' = hands g → cardsIn g' = cardsIn g.
Proof. unfold cardsIn, allHands. by intros -> ->. Qed.

(** After the deal, no step creates a card, and only [makeClaim] lets
    cards go. *)
Lemma sessionStep_cards ch g m g' :
  tidy g → cardsIn g ⊆ deckCards → started g = true →
  sessionStep ch g m g' →
  started g' = true
  ∧ cardsIn g' ⊆ cardsIn g
  ∧ ((∀ c suit a, m ≠ MakeClaim c suit a) → cardsIn g' = cardsIn g).
Proof.
  intros (Hnd & Hdom & Hlobby) Hdeck Hst.
  destruct 1 as [c name Hname|c random order|c Hst'
                |c target card asker ha ht Ha Hnot Ht Hhas|c target card turn
                |c suit a len g1 lg cpl Hr|c suit a len g1 lg cpl Hr].
  - assert (Heq : cardsIn (set_players (players g ++ [name]) g) = cardsIn g).
    { unfold cardsIn, allHands. simpl. rewrite handsOf_app, handsOf_cons.
      destruct (hands g !! name) as [x|] eqn:Hx.
      - exfalso. apply Hname, Hdom. by eexists.
      - simpl. by rewrite app_nil_r. }
    by rewrite Heq.
  - by rewrite (cardsIn_hands g (set_teams _ g)).
  - congruence.
  - assert (Hne : target ≠ asker) by (intros ->; congruence).
    assert (Heq : cardsIn (set_hands
                    (alter (λ h, h ++ [card]) asker
                       (<[target := filter (λ x, x ≠ card) ht]> (hands g))) g)
                  = cardsIn g).
    { unfold cardsIn, allHands. simpl.
      rewrite (alter_as_insert _ _ _ ha) by (by rewrite lookup_insert_ne).
      pose proof (handsOf_insert (hands g) target (filter (λ x, x ≠ card) ht)
                    (players g) Hnd (Hdom _ (mk_is_Some _ _ Ht))) as E1.
      pose proof (handsOf_insert
                    (<[target := filter (λ x, x ≠ card) ht]> (hands g))
                    asker (ha ++ [card]) (players g) Hnd
                    (Hdom _ (mk_is_Some _ _ Ha))) as E2.
      rewrite Ht in E1. rewrite lookup_insert_ne, Ha in E2 by done.
      simpl in E1, E2. rewrite list_to_set_disj_app in E2.
      assert (Hone : multiplicity card (list_to_set_disj ht : gmultiset string) ≤ 1).
      { pose proof (handsOf_part (hands g) target ht (players g)
                      (Hdom _ (mk_is_Some _ _ Ht)) Ht) as Hpart.
        pose proof (multiplicity_NoDup createDeck card NoDup_createDeck) as Hd.
        unfold cardsIn, allHands, deckCards in Hdeck.
        specialize (Hpart card). specialize (Hdeck card). lia. }
      pose proof (take_card_out card ht Hone Hhas) as E3.
      rewrite list_to_set_disj_cons, list_to_set_disj_nil in E2.
      revert E1 E2 E3.
      generalize (list_to_set_disj ht : gmultiset string).
      generalize (list_to_set_disj ha : gmultiset string).
      generalize (list_to_set_disj (filter (λ x, x ≠ card) ht) : gmultiset string).
      generalize (list_to_set_disj (handsOf (hands g) (players g))
                  : gmultiset string).
      generalize (list_to_set_disj
                    (handsOf (<[target := filter (λ x, x ≠ card) ht]> (hands g))
                       (players g)) : gmultiset string).
      generalize (list_to_set_disj
                    (handsOf
                       (<[asker := ha ++ [card]]>
                          (<[target := filter (λ x, x ≠ card) ht]> (hands g)))
                       (players g)) : gmultiset string).
      clear. intros X2 X1 X F A T E1 E2 E3. multiset_solver. }
    by rewrite Heq.
  - by rewrite (cardsIn_hands g (set_currentTurn turn g)).
  - destruct (validateClaim_frame _ _ _ _ _ _ _ Hr) as (Hp & Hst1 & [Hh|[cpl' Hh]]).
    + rewrite (cardsIn_hands g g1) by done. split; [congruence|]. done.
    + split; [congruence|]. split; [|intros Hno; by destruct (Hno c suit a)].
      unfold cardsIn, allHands. rewrite Hp.
      by apply (removeClaimed_cards a _ _ cpl').
  - destruct (validateClaim_frame _ _ _ _ _ _ _ Hr) as (Hp & Hst1 & [Hh|[cpl' Hh]]).
    + rewrite (cardsIn_hands g (set_currentTurn _ g1)) by done.
      split; [simpl; congruence|]. done.
    + split; [simpl; congruence|].
      split; [|intros Hno; by destruct (Hno c suit a)].
      unfold cardsIn, allHands. simpl. rewrite Hp.
      by apply (removeClaimed_cards a _ _ cpl').
Qed.

(** The deal itself: the hands are the first [n * floor(48 / n)] cards of
    the shuffled deck. *)
Lemma dealt_balanced ch g :
  tidy g → started g = false → shuffledDeck ch ≡ₚ createDeck →
  let g' := set_started true (set_currentTurn 0
              (set_hands (deal (shuffledDeck ch)
                            (length (shuffledDeck ch) / length (players g)) 0
                            (players g) (hands g)) g)) in
  balanced g' {| dealtCards := cardsIn g'; dealtTo := length (players g);
                 removedCards := ∅ |}.
Proof.
  intros (Hnd & _ & _) Hst Hdeck g'.
  assert (Hlen : length (shuffledDeck ch) = 48)
    by (by rewrite Hdeck, length_createDeck).
  assert (Hall : allHands g'
                 = take (length (players g) * (48 / length (players g)))
                     (shuffledDeck ch)).
  { unfold allHands, g'. simpl. rewrite handsOf_deal by done.
    by rewrite Hlen. }
  unfold balanced. simpl. split; [clear; multiset_solver|]. split.
  - unfold cardsIn, deckCards. rewrite Hall, <- Hdeck.
    apply submseteq_list_to_set_disj, sublist_submseteq, sublist_take.
  - unfold cardsIn. rewrite size_list_to_set_disj, Hall, length_take_le; [done|].
    rewrite Hlen. apply Nat.Div0.mul_div_le.
Qed.

Lemma audit_elsewhere m w w' book (c : string) :
  targetOf m ≠ Some c → audit m w w' book !! c = book !! c.
Proof.
  intros Hne. destruct m as [| | |c0| |c0 suit a| |]; simpl; try done.
  - destruct (games w !! c0) as [g|]; [|done].
    destruct (games w' !! c0) as [g'|]; [|done].
    destruct (started g); [done|].
    rewrite lookup_insert_ne; [done|]. intros ->. by apply Hne.
  - destruct (games w !! c0) as [g|]; [|done].
    destruct (games w' !! c0) as [g'|]; [|done].
    destruct (book !! c0) as [l|]; [|done].
    rewrite lookup_insert_ne; [done|]. intros ->. by apply Hne.
Qed.

(** Every stored session is tidy, and the books of every started game
    balance. *)
Lemma audited_books w book :
  audited w book →
  ∀ c g, games w !! c = Some g →
    tidy g ∧ (started g = true → ∃ l, book !! c = Some l ∧ balanced g l).
Proof.
  induction 1 as [|w book ch m Hw IH Hch|w book pid gc out Hw IH|w book c0 Hw IH Hin];
    intros c g' Hg'.
  - simpl in Hg'. by rewrite lookup_empty in Hg'.
  - pose proof Hg' as Hafter.
    apply handleMessage_session in Hg'
      as [Hg|[(name & -> & -> & ->)|(g & Hg & Htarget & Hstep)]].
    + (* the session was not touched *)
      destruct (IH c g' Hg) as [Htidy Hbook]. split; [done|]. intros Hst.
      destruct (Hbook Hst) as (l & Hl & Hbal).
      destruct (decide (targetOf m = Some c)) as [Ht|Ht];
        [|exists l; by rewrite audit_elsewhere].
      destruct m as [| | |c0| |c0 suit a| |]; simpl in Ht |- *;
        try (by exists l); injection Ht as ->.
      * rewrite Hg, Hafter, Hst. by exists l.
      * rewrite Hg, Hafter, Hl. eexists. rewrite lookup_insert_eq.
        split; [done|]. destruct Hbal as (Hsum & Hsub & Hsize).
        unfold balanced. simpl. split; [|done].
        clear -Hsum. multiset_solver.
    + (* the session was just created *)
      split; [|done]. split; [apply NoDup_singleton|]. split; [|done].
      simpl. intros p Hp. rewrite lookup_empty in Hp. by destruct Hp.
    + (* the session was rewritten by the handler *)
      destruct (IH c g Hg) as [Htidy Hbook].
      split; [by apply (sessionStep_tidy ch g m)|]. intros Hst'.
      destruct (started g) eqn:Hst.
      * destruct (Hbook eq_refl) as (l & Hl & Hsum & Hsub & Hsize).
        assert (Hdeck : cardsIn g ⊆ deckCards).
        { intros x. specialize (Hsub x). rewrite <- Hsum in Hsub.
          rewrite multiplicity_disj_union in Hsub. lia. }
        destruct (sessionStep_cards ch g m g' Htidy Hdeck Hst Hstep)
          as (_ & Hless & Hsame).
        destruct m as [| | |c0| |c0 suit a| |]; simpl in Htarget |- *;
          try discriminate Htarget; injection Htarget as ->;
          try (exists l; split; [done|]; unfold balanced;
               rewrite Hsame by done; done).
        -- rewrite Hg, Hafter, Hst. exists l. split; [done|].
           unfold balanced. rewrite Hsame by done. done.
        -- rewrite Hg, Hafter, Hl. eexists. rewrite lookup_insert_eq.
           split; [done|]. unfold balanced. simpl.
           split; [|done]. clear -Hsum Hless. multiset_solver.
      * destruct Hstep as [| |c1 Hst1| | |c1 suit a len g1 lg cpl Hr
                          |c1 suit a len g1 lg cpl Hr];
          simpl in Hst'; try congruence.
        -- simpl in Htarget. injection Htarget as ->. simpl in Hch |- *.
           rewrite Hg, Hafter, Hst. eexists. rewrite lookup_insert_eq.
           split; [done|]. by apply dealt_balanced.
        -- destruct (validateClaim_frame _ _ _ _ _ _ _ Hr) as (_ & Hs1 & _).
           congruence.
        -- destruct (validateClaim_frame _ _ _ _ _ _ _ Hr) as (_ & Hs1 & _).
           congruence.
  - by apply (IH c).
  - simpl in Hg'. apply lookup_delete_Some in Hg' as [_ Hg']. by apply (IH c).
Qed.

(** Every reachable world has its books. *)
Lemma reachable_audited w : reachable w → ∃ book, audited w book.
Proof.
  induction 1 as [|w ch m Hw [book IH] _ Hch|w pid gc out Hw [book IH]
                 |w c Hw [book IH] Hin].
  - exists ∅. constructor.
  - eexists. by apply audited_message.
  - exists book. by constructor.
  - exists book. by constructor.
Qed.

Lemma filterParity_split (l : list string) i :
  filterParity 0 i l ++ filterParity 1 i l ≡ₚ l.
Proof.
  revert i. induction l as [|x l IH]; intros i; [done|]. simpl.
  assert (Hmod : i mod 2 < 2) by (apply Nat.mod_upper_bound; lia).
  repeat case_decide; try lia.
  - simpl. by rewrite IH.
  - rewrite <- Permutation_middle. by rewrite IH.
Qed.

Lemma validateClaim_teams g suit len a g1 logMessage completion :
  validateClaim g suit len a = (g1, logMessage, completion) →
  teams g1 = teams g.
Proof.
  unfold validateClaim.
  destruct (sameLength _ _); [|by intros [= <- _ _]].
  destruct (allCorrect _ _) as [[|]|];
    [|by intros [= <- _ _]|by intros [= <- _ _]].
  destruct (allSameTeam _ _).
  - simpl. destruct (removeClaimed a (hands g)) as [h cpl].
    by intros [= <- _ _].
  - by intros [= <- _ _].
Qed.

(** In every reachable world no player is on both teams (nor twice on
    one): the assumption under which the claim-uniformity law is stated. *)
Lemma teams_disjoint w book (c : string) g :
  audited w book → games w !! c = Some g →
  NoDup (team1 (teams g) ++ team2 (teams g)).
Proof.
  intros Hw. revert c g.
  induction Hw as [|w book ch m Hw IH Hch|w book pid gc out Hw IH
                  |w book c0 Hw IH Hin]; intros c g' Hg'.
  - simpl in Hg'. by rewrite lookup_empty in Hg'.
  - apply handleMessage_session in Hg'
      as [Hg|[(name & -> & -> & ->)|(g & Hg & Htarget & Hstep)]].
    + by apply (IH c).
    + constructor.
    + specialize (IH c g Hg).
      destruct (audited_books w book Hw c g Hg) as [(Hnd & _ & _) _].
      destruct Hstep as [| c1 random order| | | |c1 suit a len g1 lg cpl Hr
                        |c1 suit a len g1 lg cpl Hr]; try done.
      * simpl. rewrite filterParity_split.
        simpl in Htarget. injection Htarget as ->.
        destruct random; [|done]. simpl in Hch. rewrite Hg in Hch.
        unfold order. by rewrite Hch.
      * by rewrite (validateClaim_teams _ _ _ _ _ _ _ Hr).
      * simpl. by rewrite (validateClaim_teams _ _ _ _ _ _ _ Hr).
  - by apply (IH c).
  - simpl in Hg'. apply lookup_delete_Some in Hg' as [_ Hg']. by apply (IH c).
Qed.

End Books.

(** ** Card conservation *)

Section Conservation.

Lemma runAudited_app s1 s2 wb :
  runAudited (s1 ++ s2) wb = runAudited s2 (runAudited s1 wb).
Proof. unfold runAudited. by rewrite foldl_app. Qed.


Lemma runAudited_world script w book :
  (runAudited script (w, book)).1 = run script w.
Proof.
  revert w book. induction script as [|[ch m] rest IH]; intros w book; [done|].
  simpl. apply IH.
Qed.






End Conservation.

(** ** Invariants of the store *)

Section StoreInvariants.

Lemma reachable_tidy w (c : string) g :
  reachable w → games w !! c = Some g → tidy g.
Proof.
  intros [book Hbook]%reachable_audited Hg.
  by destruct (audited_books w book Hbook c g Hg).
Qed.

(** A property of stored sessions holds in every reachable world as soon as
    it holds of a new session and survives every rewriting of a session by
    a handler. *)
Lemma reachable_sessions (P : string → GameSession → Prop) :
  (∀ ch name, P (newCode ch) (newSession ch name)) →
  (∀ w ch m c g g',
     reachable w → chance_ok w ch m →
     games w !! c = Some g → P c g →
     games (handleMessage ch m w) !! c = Some g' →
     targetOf m = Some c → sessionStep ch g m g' → P c g') →
  ∀ w c g, reachable w → games w !! c = Some g → P c g.
Proof.
  intros Hnew Hstep w c g Hw. revert c g.
  induction Hw as [|w ch m Hw IH _ Hch|w pid gc out Hw IH|w c0 Hw IH Hin];
    intros c g' Hg'.
  - simpl in Hg'. by rewrite lookup_empty in Hg'.
  - pose proof Hg' as Hafter.
    apply handleMessage_session in Hg'
      as [Hg|[(name & -> & -> & ->)|(g & Hg & Htarget & Hs)]].
    + by apply IH.
    + apply Hnew.
    + exact (Hstep w ch m c g g' Hw Hch Hg (IH c g Hg) Hafter Htarget Hs).
  - by apply IH.
  - simpl in Hg'. apply lookup_delete_Some in Hg' as [_ Hg']. by apply IH.
Qed.

Lemma validateClaim_fields g suit len a g1 logMessage completion :
  validateClaim g suit len a = (g1, logMessage, completion) →
  code g1 = code g ∧ players g1 = players g ∧ teams g1 = teams g
  ∧ currentTurn g1 = currentTurn g ∧ host g1 = host g.
Proof.
  unfold validateClaim.
  destruct (sameLength _ _); [|by intros [= <- _ _]].
  destruct (allCorrect _ _) as [[|]|];
    [|by intros [= <- _ _]|by intros [= <- _ _]].
  destruct (allSameTeam _ _).
  - simpl. destruct (removeClaimed a (hands g)) as [h cpl].
    by intros [= <- _ _].
  - by intros [= <- _ _].
Qed.

(** What [joinGame] can leave under the code it was sent to. *)
Lemma joinGame_session (c name : string) w g g' :
  games w !! c = Some g → games (joinGame c name w).1 !! c = Some g' →
  g' = g
  ∨ (g' = set_players (players g ++ [name]) g
     ∧ (name ∉ players g) ∧ length (players g) < 12).
Proof.
  intros Hg. unfold joinGame, getGameState. rewrite Hg.
  destruct (includes name (players g)) eqn:Hinc.
  { simpl. rewrite Hg. intros [= <-]. by left. }
  destruct (12 <=? length (players g)) eqn:Hfull.
  { simpl. rewrite Hg. intros [= <-]. by left. }
  simpl. rewrite lookup_insert_eq. intros [= <-]. right.
  split; [done|]. split; [by apply includes_false|by apply Nat.leb_gt].
Qed.



Lemma reachable_roster w (c : string) g :
  reachable w → games w !! c = Some g →
  head (players g) = Some (host g) ∧ 1 ≤ length (players g) ≤ 12.
Proof.
  apply (reachable_sessions
           (λ _ g, head (players g) = Some (host g)
                   ∧ 1 ≤ length (players g) ≤ 12)).
  - intros ch name. simpl. split; [done|lia].
  - intros w' ch m c' g0 g' Hw Hch Hg [Hhost Hlen] Hafter Htarget Hstep.
    destruct Hstep as [c1 name Hname| | | | |c1 suit a len g1 lg cpl Hr
                      |c1 suit a len g1 lg cpl Hr]; try done.
    + simpl in Htarget. injection Htarget as ->.
      rewrite handleMessage_games in Hafter. simpl in Hafter.
      destruct (joinGame_session c' name w' g0 _ Hg Hafter)
        as [Heq|(_ & _ & Hroom)].
      { exfalso. apply (f_equal players) in Heq. simpl in Heq.
        apply (f_equal length) in Heq. rewrite length_app in Heq.
        simpl in Heq. lia. }
      simpl. rewrite length_app. simpl. split; [|lia].
      destruct (players g0); [done|by simpl].
    + destruct (validateClaim_fields _ _ _ _ _ _ _ Hr) as (_ & -> & _ & _ & ->).
      done.
    + simpl. destruct (validateClaim_fields _ _ _ _ _ _ _ Hr) as (_ & -> & _ & _ & ->).
      done.
Qed.

(** X1: the roster.  In every reachable world each stored session has
    pairwise distinct players, between 1 and 12 of them, and its host is the
    first of them. *)
Theorem roster_invariant w (c : string) g :
  reachable w → games w !! c = Some g →
  NoDup (players g)
  ∧ head (players g) = Some (host g)
  ∧ 1 ≤ length (players g) ≤ 12.
Proof.
  intros Hw Hg. split; [by destruct (reachable_tidy w c g Hw Hg)|].
  by apply (reachable_roster w c).
Qed.

(** The roster at the example table after the deal. *)
Lemma roster_invariant_witness :
  NoDup (players (Table.session Table.dealt))
  ∧ head (players (Table.session Table.dealt))
    = Some (host (Table.session Table.dealt))
  ∧ 1 ≤ length (players (Table.session Table.dealt)) ≤ 12.
Proof.
  apply (roster_invariant Table.dealt "ABC123").
  - apply (Table_dealt_reachable anyMessage). compute_done.
  - vm_compute. reflexivity.
Defined.

(** X2: a session is stored under its own code.  In every reachable world
    the [code] field of a stored session is the key it is stored under, so
    the deletion that [endGame] schedules on [gameState.code] names the
    ended session. *)
Theorem stored_under_own_code w (c : string) g :
  reachable w → games w !! c = Some g → code g = c.
Proof.
  apply (reachable_sessions (λ c g, code g = c)).
  - done.
  - intros w' ch m c' g0 g' _ _ _ Hcode _ _ Hstep.
    destruct Hstep as [| | | | |c1 suit a len g1 lg cpl Hr
                      |c1 suit a len g1 lg cpl Hr]; try done.
    + by destruct (validateClaim_fields _ _ _ _ _ _ _ Hr) as (-> & _).
    + simpl. by destruct (validateClaim_fields _ _ _ _ _ _ _ Hr) as (-> & _).
Qed.

(** The stored code at the example table once the game has ended, and the
    timer that was scheduled. *)
Lemma stored_under_own_code_witness :
  code (Table.session Table.finished) = "ABC123"
  ∧ timers Table.finished = ["ABC123"].
Proof.
  split; [|vm_compute; reflexivity].
  apply (stored_under_own_code Table.finished "ABC123").
  - apply run_reachable; [|compute_done].
    apply (Table_dealt_reachable anyMessage). compute_done.
  - vm_compute. reflexivity.
Defined.

(** X3: hands belong to players.  In every reachable world only players of
    the session have an entry in [hands], and a session that has not started
    has no hands at all. *)
Theorem hands_belong_to_players w (c : string) g :
  reachable w → games w !! c = Some g →
  (∀ p, is_Some (hands g !! p) → p ∈ players g)
  ∧ (started g = false → hands g = ∅).
Proof.
  intros Hw Hg. by destruct (reachable_tidy w c g Hw Hg) as (_ & ? & ?).
Qed.

(** Hands at the example table: none in the lobby. *)
Lemma hands_belong_to_players_witness :
  hands (Table.session Table.seated) = ∅.
Proof.
  apply (hands_belong_to_players Table.seated "ABC123").
  - apply run_reachable; [constructor|compute_done].
  - vm_compute. reflexivity.
  - vm_compute. reflexivity.
Defined.




(** X5: the teams.  In every reachable world no player is on both teams or
    twice on one, and every team member is a player of the session. *)
Theorem teams_invariant w (c : string) g :
  reachable w → games w !! c = Some g →
  NoDup (team1 (teams g) ++ team2 (teams g))
  ∧ ∀ p, p ∈ team1 (teams g) ++ team2 (teams g) → p ∈ players g.
Proof.
  apply (reachable_sessions
           (λ _ g, NoDup (team1 (teams g) ++ team2 (teams g))
                   ∧ ∀ p, p ∈ team1 (teams g) ++ team2 (teams g) → p ∈ players g)).
  - intros ch name. simpl. split; [constructor|].
    intros p Hp. by apply elem_of_nil in Hp.
  - intros w' ch m c' g0 g' Hw Hch Hg [Hnd Hsub] _ Htarget Hstep.
    destruct (reachable_tidy w' c' g0 Hw Hg) as (Hplayers & _ & _).
    destruct Hstep as [c1 name Hname|c1 random order| | |
                      |c1 suit a len g1 lg cpl Hr
                      |c1 suit a len g1 lg cpl Hr]; try done.
    + simpl. split; [done|]. intros p Hp. apply elem_of_app. left. by apply Hsub.
    + simpl. rewrite filterParity_split.
      simpl in Htarget. injection Htarget as ->.
      assert (Horder : order ≡ₚ players g0).
      { unfold order. destruct random; [|done].
        simpl in Hch. by rewrite Hg in Hch. }
      split; [by rewrite Horder|]. intros p Hp.
      by rewrite filterParity_split, Horder in Hp.
    + by destruct (validateClaim_fields _ _ _ _ _ _ _ Hr) as (_ & -> & -> & _).
    + simpl.
      by destruct (validateClaim_fields _ _ _ _ _ _ _ Hr) as (_ & -> & -> & _).
Qed.

(** The teams at the example table. *)
Lemma teams_invariant_witness :
  NoDup (team1 (teams (Table.session Table.dealt))
         ++ team2 (teams (Table.session Table.dealt)))
  ∧ ∀ p, p ∈ team1 (teams (Table.session Table.dealt))
             ++ team2 (teams (Table.session Table.dealt)) →
         p ∈ players (Table.session Table.dealt).
Proof.
  apply (teams_invariant Table.dealt "ABC123").
  - apply (Table_dealt_reachable anyMessage). compute_done.
  - vm_compute. reflexivity.
Defined.

End StoreInvariants.

(** ** Teams and the deal *)

Section TeamsAndDeal.

Lemma filterParity_length (l : list string) r i :
  r < 2 →
  (i mod 2 = r → length (filterParity r i l) = (length l + 1) / 2)
  ∧ (i mod 2 ≠ r → length (filterParity r i l) = length l / 2).
Proof.
  intros Hr. revert i. induction l as [|x l IH]; intros i.
  { done. }
  assert (Hmod : i mod 2 < 2) by (apply Nat.mod_upper_bound; lia).
  assert (HS : S i mod 2 = 1 - i mod 2).
  { replace (S i) with (i + 1) by lia.
    rewrite Nat.Div0.add_mod by lia.
    destruct (i mod 2) as [|[|?]]; simpl; [done|done|lia]. }
  cbn [filterParity].
  split; intros Hi; case_decide; try done; rewrite ?length_cons.
  - destruct (IH (S i)) as [_ Hlen]; rewrite Hlen by lia.
    replace (S (length l) + 1) with (length l + 1 * 2) by lia.
    rewrite Nat.div_add by lia. lia.
  - destruct (IH (S i)) as [Hlen _]; rewrite Hlen by lia. f_equal. lia.
Qed.

(** X6: [assignTeams] splits the roster.  On a session with at least 4
    players, the two teams it stores are together a rearrangement of the
    players (nobody left out, nobody twice), team 1 has the larger half when
    the number of players is odd, and the roster itself is untouched. *)
Theorem assignTeams_partition ch (c : string) (random : bool) w g :
  games w !! c = Some g → 4 ≤ length (players g) →
  chance_ok w ch (AssignTeams c random) →
  ∃ g', games (assignTeams ch c random w).1 !! c = Some g'
    ∧ team1 (teams g') ++ team2 (teams g') ≡ₚ players g
    ∧ length (team1 (teams g')) = (length (players g) + 1) / 2
    ∧ length (team2 (teams g')) = length (players g) / 2
    ∧ players g' = players g.
Proof.
  intros Hg Hn Hch. unfold assignTeams, getGameState.
  rewrite Hg, (proj2 (Nat.ltb_ge _ _) Hn). simpl. rewrite lookup_insert_eq.
  set (order := if random then shuffledPlayers ch else players g).
  assert (Horder : order ≡ₚ players g).
  { unfold order. destruct random; [|done]. simpl in Hch. by rewrite Hg in Hch. }
  eexists. split; [reflexivity|]. simpl.
  split; [by rewrite filterParity_split|].
  rewrite <- (Permutation_length Horder).
  split; [|split; [|done]].
  - apply (filterParity_length order 0 0); [lia|done].
  - apply (filterParity_length order 1 0); [lia|done].
Qed.

(** Five at the table, reshuffled: three and two. *)
Lemma assignTeams_partition_witness :
  let ch := {| newCode := ""; now := 0;
               shuffledPlayers := ["Eve"; "Dave"; "Carol"; "Bob"; "Alice"];
               shuffledDeck := [] |} in
  let w := run Table.fiveStart boot in
  ∃ g', games (assignTeams ch "ABC123" true w).1 !! "ABC123" = Some g'
    ∧ length (team1 (teams g')) = 3 ∧ length (team2 (teams g')) = 2.
Proof.
  intros ch w.
  destruct (assignTeams_partition ch "ABC123" true w (Table.session w))
    as (g' & Hg' & _ & H1 & H2 & _).
  - vm_compute. reflexivity.
  - compute_done.
  - compute_done.
  - exists g'. split; [exact Hg'|]. rewrite H1, H2.
    split; vm_compute; reflexivity.
Defined.


Lemma getPlayerView_is_Some g (viewer : string) :
  (∀ p, p ∈ players g → is_Some (hands g !! p)) →
  is_Some (getPlayerView g viewer).
Proof.
  intros Hall. unfold getPlayerView.
  destruct (viewHands_returns g viewer (players g) ∅) as [vh ->]; [|by eexists].
  intros p Hp _. left. by apply Hall.
Qed.



End TeamsAndDeal.

(** ** Who receives which view *)

Section OwnViews.

Lemma sendToPlayer_playerId p m w : playerId (sendToPlayer p m w) = playerId w.
Proof. unfold sendToPlayer. by case_decide. Qed.

Lemma sendToPlayer_sent p m w :
  sent (sendToPlayer p m w)
  = sent w ++ (if decide (playerId w = Some p) then [m] else []).
Proof. unfold sendToPlayer. case_decide; simpl; [done|by rewrite app_nil_r]. Qed.

(** The per-player loop only ever sends the view of the player this
    connection is bound to. *)
Lemma sendViews_sent mk g ps w :
  ∃ out, sent (sendViews mk g ps w).1 = sent w ++ out
    ∧ ∀ msg, msg ∈ out →
        ∃ pid v, playerId w = Some pid ∧ pid ∈ ps
                 ∧ getPlayerView g pid = Some v ∧ msg = mk v.
Proof.
  revert w. induction ps as [|p ps IH]; intros w; simpl.
  { exists []. split; [by rewrite app_nil_r|]. intros msg Hin.
    by apply elem_of_nil in Hin. }
  destruct (getPlayerView g p) as [v|] eqn:Hv.
  2:{ exists []. split; [by rewrite app_nil_r|]. intros msg Hin.
      by apply elem_of_nil in Hin. }
  destruct (IH (sendToPlayer p (mk v) w)) as (out & Hout & Hown).
  rewrite Hout, sendToPlayer_sent, <- app_assoc.
  eexists. split; [reflexivity|]. intros msg Hin.
  apply elem_of_app in Hin as [Hin|Hin].
  - case_decide as Hpid; [|by apply elem_of_nil in Hin].
    apply list_elem_of_singleton in Hin as ->.
    exists p, v. repeat split; [done|by left|done].
  - destruct (Hown msg Hin) as (pid & v' & Hpid & Hps & Hview & ->).
    rewrite sendToPlayer_playerId in Hpid.
    exists pid, v'. repeat split; [done|by right|done].
Qed.

Lemma dispatch_views ch m w :
  ∃ out, sent (dispatch ch m w).1 = sent w ++ out
    ∧ ∀ msg v, msg ∈ out → carries msg v →
        ∃ pid c g', playerId w = Some pid ∧ targetOf m = Some c
                    ∧ games (dispatch ch m w).1 !! c = Some g'
                    ∧ getPlayerView g' pid = Some v.
Proof.
  assert (Hnone : ∀ w', sent w' = sent w →
            ∃ out, sent w' = sent w ++ out
              ∧ ∀ msg v, msg ∈ out → carries msg v →
                  ∃ pid c g', playerId w = Some pid ∧ targetOf m = Some c
                              ∧ games w' !! c = Some g'
                              ∧ getPlayerView g' pid = Some v).
  { intros w' Hs. exists []. split; [by rewrite app_nil_r|].
    intros msg v Hin. by apply elem_of_nil in Hin. }
  assert (Hone : ∀ w' x, sent w' = sent w ++ [x] → (∀ v, ¬ carries x v) →
            ∃ out, sent w' = sent w ++ out
              ∧ ∀ msg v, msg ∈ out → carries msg v →
                  ∃ pid c g', playerId w = Some pid ∧ targetOf m = Some c
                              ∧ games w' !! c = Some g'
                              ∧ getPlayerView g' pid = Some v).
  { intros w' x Hs Hx. exists [x]. split; [done|].
    intros msg v ->%list_elem_of_singleton Hc. by destruct (Hx v). }
  assert (Hviews : ∀ mk g c w0,
            targetOf m = Some c → sent w0 = sent w → playerId w0 = playerId w →
            games w0 !! c = Some g →
            (∀ msg v, msg = mk v → ∀ v', carries msg v' → v' = v) →
            ∃ out, sent (sendViews mk g (players g) w0).1 = sent w ++ out
              ∧ ∀ msg v, msg ∈ out → carries msg v →
                  ∃ pid c' g', playerId w = Some pid ∧ targetOf m = Some c'
                    ∧ games (sendViews mk g (players g) w0).1 !! c' = Some g'
                    ∧ getPlayerView g' pid = Some v).
  { intros mk g c w0 Ht Hs Hp Hg Hmk.
    destruct (sendViews_sent mk g (players g) w0) as (out & Hout & Hown).
    exists out. split; [by rewrite Hout, Hs|].
    intros msg v Hin Hc.
    destruct (Hown msg Hin) as (pid & v0 & Hpid & _ & Hview & Heq).
    rewrite (Hmk msg v0 Heq v Hc).
    exists pid, c, g. rewrite sendViews_games. by rewrite <- Hp. }
  assert (Herr : ∀ e v, ¬ carries (error e) v).
  { intros e v [Hc|[lg Hc]]; discriminate Hc. }
  destruct m as [name|c name|c random|c|c target card|c suit a|c name|ty];
    cbn [dispatch].
  - apply (Hone (createGame ch name w).1 (gameCreated (newCode ch) name)); [done|].
    intros v [Hc|[lg Hc]]; discriminate Hc.
  - unfold joinGame.
    destruct (getGameState c w) as [g| |];
      [|by apply Hnone|(eapply Hone; [reflexivity|apply Herr])].
    destruct (includes _ _); [(eapply Hone; [reflexivity|apply Herr])|].
    destruct (_ <=? _); [(eapply Hone; [reflexivity|apply Herr])|].
    eapply Hone; [reflexivity|]. intros v [Hc|[lg Hc]]; discriminate Hc.
  - unfold assignTeams.
    destruct (getGameState c w) as [g| |]; [|by apply Hnone|by apply Hnone].
    destruct (_ <? _); [(eapply Hone; [reflexivity|apply Herr])|].
    eapply Hone; [reflexivity|]. intros v [Hc|[lg Hc]]; discriminate Hc.
  - unfold startGame.
    destruct (getGameState c w) as [g| |]; [|by apply Hnone|by apply Hnone].
    destruct (started g); [by apply Hnone|].
    apply (Hviews _ _ c); try done.
    + simpl. by rewrite lookup_insert_eq.
    + intros msg v -> v' [Hc|[lg Hc]]; [by injection Hc|discriminate Hc].
  - unfold askForCard.
    destruct (getGameState c w) as [g| |]; [|by apply Hnone|by apply Hnone].
    destruct (hands g !! _) as [ha|]; [|by apply Hnone].
    destruct (includes card ha); [(eapply Hone; [reflexivity|apply Herr])|].
    destruct (hands g !! target) as [ht|]; [|by apply Hnone].
    destruct (includes card ht).
    + apply (Hviews _ _ c); try done.
      * simpl. by rewrite lookup_insert_eq.
      * intros msg v -> v' [Hc|[lg Hc]]; [discriminate Hc|by injection Hc].
    + apply (Hviews _ _ c); try done.
      * simpl. by rewrite lookup_insert_eq.
      * intros msg v -> v' [Hc|[lg Hc]]; [discriminate Hc|by injection Hc].
  - unfold makeClaim.
    destruct (getGameState c w) as [g| |]; [|by apply Hnone|by apply Hnone].
    destruct (suitCardsLength suit) as [len|]; [|by apply Hnone].
    destruct (validateClaim g suit len a) as [[g1 lg] cpl].
    destruct cpl; [|by apply Hnone].
    destruct (_ <=? _).
    + unfold endGame. eapply Hone; [reflexivity|].
      intros v [Hc|[lg' Hc]]; discriminate Hc.
    + apply (Hviews _ _ c); try done.
      * simpl. by rewrite lookup_insert_eq.
      * intros msg v -> v' [Hc|[lg' Hc]]; [discriminate Hc|by injection Hc].
  - by apply Hnone.
  - (eapply Hone; [reflexivity|apply Herr]).
Qed.

(** X8: a game state only goes to its owner.  Whatever the message, every
    [gameStarted] or [turnUpdate] that the handler puts on the socket carries
    the view, as [getPlayerView] computes it for the session now stored, of
    the player this connection is bound to; a connection bound to nobody
    receives no game state. *)
Theorem views_go_to_their_owner ch m w :
  ∃ out, sent (handleMessage ch m w) = sent w ++ out
    ∧ ∀ msg v, msg ∈ out → carries msg v →
        ∃ pid c g', playerId w = Some pid ∧ targetOf m = Some c
                    ∧ games (handleMessage ch m w) !! c = Some g'
                    ∧ getPlayerView g' pid = Some v.
Proof.
  destruct (dispatch_views ch m w) as (out & Hout & Hown).
  rewrite handleMessage_games. unfold handleMessage.
  destruct (dispatch ch m w) as [w' []]; simpl in *.
  - by exists out.
  - exists (out ++ [error "Failed to process request"]).
    split; [by rewrite Hout, app_assoc|].
    intros msg v Hin Hc.
    apply elem_of_app in Hin as [Hin|Hin]; [exact (Hown msg v Hin Hc)|].
    apply list_elem_of_singleton in Hin as ->.
    destruct Hc as [Hc|[lg Hc]]; discriminate Hc.
Qed.

End OwnViews.

(** ** More on makeClaim *)

Section ClaimOutcomes.

Lemma removeClaimed_spec (a : list (string * list Card))
    (h : gmap string (list Card)) :
  NoDup (map fst a) → (∀ p, p ∈ map fst a → is_Some (h !! p)) →
  ∃ h', removeClaimed a h = (h', Returned)
    ∧ (∀ p cards, (p, cards) ∈ a →
         ∃ hand, h !! p = Some hand
                 ∧ h' !! p = Some (filter (λ c, c ∉ cards) hand))
    ∧ (∀ p, p ∉ map fst a → h' !! p = h !! p).
Proof.
  revert h. induction a as [|[q cs] rest IH]; intros h Hnd Hall.
  { exists h. split; [done|]. split; [|done].
    intros p cards Hin. by apply elem_of_nil in Hin. }
  simpl in Hnd. apply NoDup_cons in Hnd as [Hq Hnd]. simpl.
  destruct (Hall q) as [hand Hhand]; [by left|]. rewrite Hhand.
  destruct (IH (<[q := filter (λ c, c ∉ cs) hand]> h) Hnd)
    as (h' & Hrem & Hnamed & Hother).
  { intros p Hp. rewrite lookup_insert_ne; [apply Hall; by right|].
    intros ->. done. }
  exists h'. split; [done|]. split.
  - intros p cards Hin. apply elem_of_cons in Hin as [[= -> ->]|Hin].
    + exists hand. split; [done|]. by rewrite (Hother q Hq), lookup_insert_eq.
    + destruct (Hnamed p cards Hin) as (hand' & Hh & Hh').
      assert (Hne : q ≠ p).
      { intros ->. apply Hq. apply list_elem_of_fmap. by exists (p, cards). }
      rewrite lookup_insert_ne in Hh by done. by exists hand'.
  - intros p Hp. apply not_elem_of_cons in Hp as [Hne Hp].
    rewrite (Hother p Hp). by rewrite lookup_insert_ne.
Qed.

Lemma allSameTeam_uniform (ts : Teams) (a : list (string * list Card)) :
  (∀ x, x ∈ team1 ts → x ∉ team2 ts) →
  (∀ p, p ∈ map fst a → p ∈ team1 ts) ∨ (∀ p, p ∈ map fst a → p ∈ team2 ts) →
  allSameTeam ts a = true.
Proof.
  intros Hdisj Hside. unfold allSameTeam. apply forallb_forall.
  intros p Hp%list_elem_of_In.
  destruct (map fst a) as [|p0 keys] eqn:Hkeys; [by apply elem_of_nil in Hp|].
  simpl. destruct Hside as [H1|H2].
  - rewrite (proj2 (includes_true _ _) (H1 p0 (list_elem_of_here _ _))).
    by rewrite (proj2 (includes_true _ _) (H1 p Hp)).
  - assert (Hp0 : p0 ∉ team1 ts).
    { intros Hin. by apply (Hdisj p0 Hin), H2, list_elem_of_here. }
    rewrite (proj2 (includes_false _ _) Hp0).
    rewrite (proj2 (includes_true _ _) (H2 p Hp)).
    simpl. by rewrite andb_false_r.
Qed.

(** X9: a successful claim.  When six cards are assigned, every assigned
    card is in the hand of the player it is assigned to, every named player
    has a hand and all named players are on one team, the half-suit name is
    pushed on the claimed list of the claimer's team (whichever team the
    named players are on, and whether or not the cards are those of the
    half-suit), each named player's hand loses exactly the cards assigned to
    that player, and the hands of the players not named are untouched. *)
Theorem makeClaim_success (c suit : string)
    (assignments : list (string * list Card)) w g (suitCards : list Card) :
  games w !! c = Some g →
  halfSuit suit = Some suitCards →
  length (concat (map snd assignments)) = 6 →
  NoDup (map fst assignments) →
  (∀ player cards card, (player, cards) ∈ assignments → card ∈ cards →
     ∃ hand, hands g !! player = Some hand ∧ card ∈ hand) →
  (∀ p, p ∈ map fst assignments → is_Some (hands g !! p)) →
  (∀ x, x ∈ team1 (teams g) → x ∉ team2 (teams g)) →
  (∀ p, p ∈ map fst assignments → p ∈ team1 (teams g))
  ∨ (∀ p, p ∈ map fst assignments → p ∈ team2 (teams g)) →
  let claimerTeam := teamOf (teams g) (at_index (players g) (currentTurn g)) in
  ∃ g', games (makeClaim c suit assignments w).1 !! c = Some g'
    ∧ claimedSuits g' = pushTeam claimerTeam suit (claimedSuits g)
    ∧ (∀ p cards, (p, cards) ∈ assignments →
         ∃ hand, hands g !! p = Some hand
                 ∧ hands g' !! p = Some (filter (λ x, x ∉ cards) hand))
    ∧ (∀ p, p ∉ map fst assignments → hands g' !! p = hands g !! p).
Proof.
  intros Hg Hs Hlen Hkeys Hheld Hhands Hdisj Hside claimerTeam.
  destruct (removeClaimed_spec assignments (hands g) Hkeys Hhands)
    as (h' & Hrem & Hnamed & Hother).
  assert (Hr : resolveClaim g suit suitCards assignments
    = (set_hands h' (set_claimedSuits
                       (pushTeam claimerTeam suit (claimedSuits g)) g),
       keyOf (at_index (players g) (currentTurn g)) +:+ " successfully claimed "
         +:+ suit +:+ " for " +:+ teamKey claimerTeam +:+ "!", Returned)).
  { unfold resolveClaim, validateClaim, sameLength.
    rewrite Hlen, (halfSuit_length _ _ Hs). simpl.
    rewrite (allCorrect_held _ _ Hheld), (allSameTeam_uniform _ _ Hdisj Hside).
    simpl. by rewrite Hrem. }
  rewrite (makeClaim_resolved _ _ _ _ _ _ _ _ Hg Hs Hr).
  eexists. split; [reflexivity|].
  destruct (8 <=? _); simpl; done.
Qed.

(** Alice, on team 1 and at turn, claims low-diamonds naming Bob, who is on
    team 2 and holds the six cards: team 1 gets the half-suit and Bob loses
    the cards. *)
Lemma makeClaim_success_witness :
  ∃ g', games (makeClaim "ABC123" "low-diamonds"
                 [("Bob", ["2♦"; "3♦"; "4♦"; "5♦"; "6♦"; "7♦"])] Table.dealt).1
          !! "ABC123" = Some g'
        ∧ claimedSuits g' = {| team1 := ["low-diamonds"]; team2 := [] |}
        ∧ hands g' !! "Bob" = Some ["9♦"; "10♦"; "J♦"; "Q♦"; "K♦"; "A♦"].
Proof.
  assert (Hd : games Table.dealt !! "ABC123" = Some (Table.session Table.dealt))
    by table_session.
  destruct (makeClaim_success "ABC123" "low-diamonds"
              [("Bob", ["2♦"; "3♦"; "4♦"; "5♦"; "6♦"; "7♦"])] Table.dealt
              (Table.session Table.dealt)
              ["2♦"; "3♦"; "4♦"; "5♦"; "6♦"; "7♦"] Hd)
    as (g' & Hg' & Hcs & Hnamed & _).
  { vm_compute; reflexivity. }
  { vm_compute; reflexivity. }
  { compute_done. }
  { clear Hd. intros player cards card Hin Hcard.
    apply list_elem_of_singleton in Hin as [= -> ->].
    exists (take 12 (drop 12 createDeck)). split; [vm_compute; reflexivity|].
    assert (Hsub : Forall (λ x, x ∈ take 12 (drop 12 createDeck))
                     ["2♦"; "3♦"; "4♦"; "5♦"; "6♦"; "7♦"]) by compute_done.
    rewrite Forall_forall in Hsub. by apply Hsub. }
  { clear Hd. intros p Hp. simpl in Hp.
    apply list_elem_of_singleton in Hp as ->.
    exists (take 12 (drop 12 createDeck)). vm_compute; reflexivity. }
  { clear Hd.
    assert (Hdisj : Forall (λ x, x ∉ team2 (teams (Table.session Table.dealt)))
                      (team1 (teams (Table.session Table.dealt))))
      by compute_done.
    rewrite Forall_forall in Hdisj. exact Hdisj. }
  { right. clear Hd. intros p Hp. simpl in Hp.
    apply list_elem_of_singleton in Hp as ->. compute_done. }
  exists g'. split; [exact Hg'|]. rewrite Hcs.
  split; [vm_compute; reflexivity|].
  destruct (Hnamed "Bob" ["2♦"; "3♦"; "4♦"; "5♦"; "6♦"; "7♦"])
    as (hand & Hh & ->); [apply list_elem_of_here|].
  assert (Hb : hands (Table.session Table.dealt) !! "Bob"
               = Some (take 12 (drop 12 createDeck))) by (vm_compute; reflexivity).
  rewrite Hb in Hh. injection Hh as <-. vm_compute. reflexivity.
Defined.

(** The inner loop on a hand is a membership test of every card. *)
Lemma cardsCorrect_hand (hand cards : list Card) :
  cardsCorrect (Hand hand) cards = Some (forallb (λ card, includes card hand) cards).
Proof.
  induction cards as [|card rest IH]; [done|]. simpl.
  destruct (includes card hand); [exact IH|done].
Qed.

(** The loops do not throw when no entry with a card names a member of
    [Object.prototype] for which no hand is stored. *)
Lemma allCorrect_returns (h : gmap string (list Card))
    (a : list (string * list Card)) :
  (∀ p cs, (p, cs) ∈ a → cs ≠ [] → h !! p = None → inherited p = None) →
  is_Some (allCorrect h a).
Proof.
  induction a as [|[p cs] rest IH]; intros Hplain; [by eexists|]. simpl.
  destruct IH as [ok' ->]; [intros q qs Hin; apply Hplain; by right|].
  destruct cs as [|card cs]; [by eexists|].
  unfold readHand. destruct (h !! p) as [hand|] eqn:Hh.
  - rewrite cardsCorrect_hand. by eexists.
  - rewrite (Hplain p (card :: cs)); [by eexists|by left|done|done].
Qed.

Lemma allCorrect_missing (h : gmap string (list Card))
    (a : list (string * list Card)) player cards card :
  (∀ p cs, (p, cs) ∈ a → cs ≠ [] → h !! p = None → inherited p = None) →
  (player, cards) ∈ a → card ∈ cards → card ∉ default [] (h !! player) →
  allCorrect h a = Some false.
Proof.
  induction a as [|[p cs] rest IH]; intros Hplain Hin Hcard Hmiss.
  { by apply elem_of_nil in Hin. }
  assert (Hrest : ∀ q qs, (q, qs) ∈ rest → qs ≠ [] → h !! q = None →
                          inherited q = None).
  { intros q qs Hq. apply Hplain. by right. }
  destruct (allCorrect_returns h rest Hrest) as [ok' Hok']. simpl.
  apply elem_of_cons in Hin as [[= <- <-]|Hin].
  - rewrite Hok'. unfold readHand. destruct (h !! player) as [hand|] eqn:Hh.
    + rewrite cardsCorrect_hand.
      assert (Hno : forallb (λ x, includes x hand) cards = false).
      { apply not_true_is_false. intros Hall. rewrite forallb_forall in Hall.
        specialize (Hall card (proj1 (list_elem_of_In _ _) Hcard)).
        apply includes_true in Hall. by apply Hmiss. }
      by rewrite Hno.
    + destruct cards as [|x cards]; [by apply elem_of_nil in Hcard|].
      by rewrite (Hplain player (x :: cards)); [|by left| |].
  - rewrite (IH Hrest Hin Hcard Hmiss).
    assert (Hhead : is_Some (cardsCorrect (readHand h p) cs)).
    { destruct cs as [|x cs]; [by eexists|].
      unfold readHand. destruct (h !! p) as [hand|] eqn:Hh.
      - rewrite cardsCorrect_hand. by eexists.
      - rewrite (Hplain p (x :: cs)); [by eexists|by left|done|done]. }
    destruct Hhead as [ok ->]. by rewrite andb_false_r.
Qed.

(** They throw as soon as an entry with a card names such a member. *)
Lemma allCorrect_throws (h : gmap string (list Card))
    (a : list (string * list Card)) p cs :
  (p, cs) ∈ a → cs ≠ [] → h !! p = None → is_Some (inherited p) →
  allCorrect h a = None.
Proof.
  induction a as [|[q qs] rest IH]; intros Hin Hcs Hh Hinh.
  { by apply elem_of_nil in Hin. }
  simpl. apply elem_of_cons in Hin as [[= <- <-]|Hin].
  - unfold readHand. rewrite Hh. destruct Hinh as [m ->].
    by destruct cs.
  - rewrite (IH Hin Hcs Hh Hinh). by destruct (cardsCorrect _ _).
Qed.

(** X10: an incorrect claim.  Six cards are assigned in a claim of one of
    the eight half-suits.  When every player named for a card has a hand
    and one of the assigned cards is not in the hand of the player it is
    assigned to, the claim fails as incorrect: nothing is awarded, no hand
    changes, and the turn advances when fewer than 8 half-suits are claimed,
    staying put otherwise.  When instead some entry names, for a card, a
    member of [Object.prototype] under which no hand is stored (such as
    constructor), the check itself throws: the session is left as it was,
    the turn included, and the answer is "Failed to process request". *)
Theorem makeClaim_incorrect (c suit : string)
    (assignments : list (string * list Card)) w g (suitCards : list Card) :
  games w !! c = Some g →
  halfSuit suit = Some suitCards →
  length (concat (map snd assignments)) = 6 →
  let total := length (team1 (claimedSuits g)) + length (team2 (claimedSuits g)) in
  (∀ player cards card hand,
     (∀ p cs, (p, cs) ∈ assignments → cs ≠ [] → is_Some (hands g !! p)) →
     (player, cards) ∈ assignments → card ∈ cards →
     hands g !! player = Some hand → card ∉ hand →
     resolveClaim g suit suitCards assignments
     = (g, keyOf (at_index (players g) (currentTurn g)) +:+ " incorrectly claimed "
             +:+ suit, Returned)
     ∧ ∃ g', games (makeClaim c suit assignments w).1 !! c = Some g'
         ∧ claimedSuits g' = claimedSuits g
         ∧ hands g' = hands g
         ∧ (total < 8 → currentTurn g' = nextTurn g)
         ∧ (8 ≤ total → currentTurn g' = currentTurn g))
  ∧ (∀ player cards,
       (player, cards) ∈ assignments → cards ≠ [] →
       hands g !! player = None → is_Some (inherited player) →
       (makeClaim c suit assignments w).2 = Threw
       ∧ ∀ ch, let w' := handleMessage ch (MakeClaim c suit assignments) w in
           games w' !! c = Some g
           ∧ sent w' = sent w ++ [error "Failed to process request"]).
Proof.
  intros Hg Hs Hlen total. split.
  - intros player cards card hand Hhave Hin Hcard Hhand Hmiss.
    assert (Hr : resolveClaim g suit suitCards assignments
      = (g, keyOf (at_index (players g) (currentTurn g)) +:+ " incorrectly claimed "
              +:+ suit, Returned)).
    { unfold resolveClaim, validateClaim, sameLength.
      rewrite Hlen, (halfSuit_length _ _ Hs). simpl.
      rewrite (allCorrect_missing _ _ player cards card); try done.
      - intros p cs Hp Hcs Hnone. destruct (Hhave p cs Hp Hcs) as [x Hx].
        congruence.
      - by rewrite Hhand. }
    split; [exact Hr|].
    rewrite (makeClaim_resolved _ _ _ _ _ _ _ _ Hg Hs Hr). fold total.
    eexists. split; [reflexivity|].
    destruct (8 <=? total) eqn:Hend.
    + apply Nat.leb_le in Hend.
      split; [done|]. split; [done|]. split; [intros; lia|done].
    + apply Nat.leb_gt in Hend.
      split; [done|]. split; [done|]. split; [done|intros; lia].
  - intros player cards Hin Hcards Hnone Hinh.
    assert (Hm : makeClaim c suit assignments w = (storeGameState c g w, Threw)).
    { unfold makeClaim.
      rewrite (getGameState_session c w g Hg), (suitCardsLength_halfSuit _ _ Hs).
      unfold validateClaim, sameLength.
      rewrite Hlen, (halfSuit_length _ _ Hs). simpl.
      by rewrite (allCorrect_throws _ _ player cards Hin Hcards Hnone Hinh). }
    split; [by rewrite Hm|]. intros ch. unfold handleMessage. cbn [dispatch].
    rewrite Hm. simpl. by rewrite lookup_insert_eq.
Qed.

(** Alice claims low-diamonds for herself; she holds none of them.  Had she
    named constructor for them, the handler would have thrown. *)
Lemma makeClaim_incorrect_witness :
  (∃ g', games (makeClaim "ABC123" "low-diamonds"
                  [("Alice", ["2♦"; "3♦"; "4♦"; "5♦"; "6♦"; "7♦"])] Table.dealt).1
           !! "ABC123" = Some g'
         ∧ claimedSuits g' = noTeams
         ∧ hands g' = hands (Table.session Table.dealt)
         ∧ currentTurn g' = 1%Z)
  ∧ (makeClaim "ABC123" "low-diamonds"
       [("constructor", ["2♦"; "3♦"; "4♦"; "5♦"; "6♦"; "7♦"])] Table.dealt).2
    = Threw.
Proof.
  assert (Hd : games Table.dealt !! "ABC123" = Some (Table.session Table.dealt))
    by table_session.
  split.
  - destruct (makeClaim_incorrect "ABC123" "low-diamonds"
                [("Alice", ["2♦"; "3♦"; "4♦"; "5♦"; "6♦"; "7♦"])] Table.dealt
                (Table.session Table.dealt)
                ["2♦"; "3♦"; "4♦"; "5♦"; "6♦"; "7♦"] Hd)
      as (Hwrong & _).
    { vm_compute; reflexivity. }
    { vm_compute; reflexivity. }
    destruct (Hwrong "Alice" ["2♦"; "3♦"; "4♦"; "5♦"; "6♦"; "7♦"] "2♦"
                (take 12 createDeck))
      as (_ & g' & Hg' & Hcs & Hh & Hturn & _).
    { clear. intros p cs Hin _. apply list_elem_of_singleton in Hin as [= -> ->].
      eexists. vm_compute; reflexivity. }
    { apply list_elem_of_here. }
    { apply list_elem_of_here. }
    { vm_compute; reflexivity. }
    { compute_done. }
    exists g'. split; [exact Hg'|]. rewrite Hcs, Hh, Hturn; [|compute_done].
    repeat split; vm_compute; reflexivity.
  - destruct (makeClaim_incorrect "ABC123" "low-diamonds"
                [("constructor", ["2♦"; "3♦"; "4♦"; "5♦"; "6♦"; "7♦"])] Table.dealt
                (Table.session Table.dealt)
                ["2♦"; "3♦"; "4♦"; "5♦"; "6♦"; "7♦"] Hd)
      as (_ & Hthrow).
    { vm_compute; reflexivity. }
    { vm_compute; reflexivity. }
    refine (proj1 (Hthrow "constructor" ["2♦"; "3♦"; "4♦"; "5♦"; "6♦"; "7♦"] _ _ _ _)).
    + apply list_elem_of_here.
    + done.
    + vm_compute; reflexivity.
    + eexists. vm_compute; reflexivity.
Defined.

(** X11: the end of the game.  When [makeClaim] returns normally and leaves
    8 or more claimed half-suits in the session, it has sent exactly one
    message, [gameEnded], with the lengths of the two claimed lists as
    scores and the winner decided by strict comparison ("Tie" on equal
    scores); it has scheduled one deletion, of the session's code; and the
    turn has not moved. *)
Theorem makeClaim_game_end (c suit : string)
    (assignments : list (string * list Card)) w g g' :
  games w !! c = Some g →
  (makeClaim c suit assignments w).2 = Returned →
  games (makeClaim c suit assignments w).1 !! c = Some g' →
  let t1 := length (team1 (claimedSuits g')) in
  let t2 := length (team2 (claimedSuits g')) in
  8 ≤ t1 + t2 →
  ∃ winner,
    sent (makeClaim c suit assignments w).1 = sent w ++ [gameEnded winner t1 t2]
    ∧ (t2 < t1 → winner = "Team 1")
    ∧ (t1 < t2 → winner = "Team 2")
    ∧ (t1 = t2 → winner = "Tie")
    ∧ timers (makeClaim c suit assignments w).1 = timers w ++ [code g']
    ∧ currentTurn g' = currentTurn g.
Proof.
  intros Hg Hret Hg' t1 t2 Hge. revert Hret Hg'.
  unfold makeClaim. rewrite (getGameState_session c w g Hg).
  destruct (suitCardsLength suit) as [len|]; [|done].
  destruct (validateClaim g suit len assignments) as [[g1 lg] cpl] eqn:Hr.
  destruct cpl; [|done].
  destruct (validateClaim_fields _ _ _ _ _ _ _ Hr) as (_ & _ & _ & Hturn & _).
  destruct (8 <=? _) eqn:Hend.
  - intros _ Hg'. simpl in Hg'. rewrite lookup_insert_eq in Hg'.
    injection Hg' as <-.
    eexists. split; [reflexivity|]. fold t1 t2.
    split; [|split; [|split; [|done]]].
    + intros Hlt. by rewrite (proj2 (Nat.ltb_lt _ _) Hlt).
    + intros Hlt. rewrite (proj2 (Nat.ltb_ge t2 t1)) by lia.
      by rewrite (proj2 (Nat.ltb_lt _ _) Hlt).
    + intros Heq. rewrite (proj2 (Nat.ltb_ge t2 t1)) by lia.
      by rewrite (proj2 (Nat.ltb_ge t1 t2)) by lia.
  - intros _ Hg'. rewrite sendViews_games in Hg'. simpl in Hg'.
    rewrite lookup_insert_eq in Hg'. injection Hg' as <-.
    apply Nat.leb_gt in Hend. simpl in t1, t2. unfold t1, t2 in Hge. lia.
Qed.

(** The eighth regular claim at the example table ends the game in a tie. *)
Lemma makeClaim_game_end_witness :
  let w := run (removelast Table.eightClaims) Table.dealt in
  let last := MakeClaim "ABC123" "high-spades"
                [("Dave", ["9♠"; "10♠"; "J♠"; "Q♠"; "K♠"; "A♠"])] in
  ∃ winner, sent (dispatch Table.ch last w).1 = sent w ++ [gameEnded winner 4 4]
            ∧ winner = "Tie".
Proof.
  intros w last.
  destruct (makeClaim_game_end "ABC123" "high-spades"
              [("Dave", ["9♠"; "10♠"; "J♠"; "Q♠"; "K♠"; "A♠"])] w
              (Table.session w) (Table.session Table.finished))
    as (winner & Hsent & _ & _ & Htie & _).
  - vm_compute. reflexivity.
  - vm_compute. reflexivity.
  - vm_compute. reflexivity.
  - compute_done.
  - exists winner. split; [exact Hsent|]. apply Htie. vm_compute. reflexivity.
Defined.

End ClaimOutcomes.

(** ** Before the deal, and other sessions *)

Section Edges.

Lemma viewHands_throws g (viewer : string) ps acc p :
  p ∈ ps → p ≠ viewer → hands g !! p = None → inherited p = None →
  viewHands g viewer ps acc = None.
Proof.
  revert acc. induction ps as [|q ps IH]; intros acc Hin Hne Hnone Hplain.
  { by apply elem_of_nil in Hin. }
  simpl. case_decide as Hq.
  - subst q. apply elem_of_cons in Hin as [->|Hin]; [done|]. by apply IH.
  - destruct (decide (q = p)) as [->|Hqp].
    + unfold readHand. by rewrite Hnone, Hplain.
    + apply elem_of_cons in Hin as [->|Hin]; [done|].
      destruct (readHand (hands g) q) as [h|[n|]|]; try done; by apply IH.
Qed.

(** With no hands dealt, a claim that names no member of [Object.prototype]
    for a card awards nothing. *)
Lemma resolveClaim_no_hands g suit suitCards a :
  hands g = ∅ → halfSuit suit = Some suitCards →
  (∀ p cs, (p, cs) ∈ a → cs ≠ [] → inherited p = None) →
  ∃ logMessage, resolveClaim g suit suitCards a = (g, logMessage, Returned).
Proof.
  intros Hh Hs Hplain. unfold resolveClaim, validateClaim, sameLength.
  rewrite (halfSuit_length _ _ Hs).
  destruct (length (concat (map snd a)) =? 6) eqn:Hlen; [|by eexists].
  apply Nat.eqb_eq in Hlen. rewrite Hh.
  assert (Hentry : ∃ p cs card, (p, cs) ∈ a ∧ card ∈ cs).
  { clear -Hlen. induction a as [|[p cs] rest IH]; [done|].
    destruct cs as [|card cs].
    - destruct IH as (q & qs & x & Hq & Hx); [done|].
      exists q, qs, x. split; [by right|done].
    - exists p, (card :: cs), card. split; by left. }
  destruct Hentry as (p & cs & card & Hp & Hcard).
  rewrite (allCorrect_missing ∅ a p cs card); [by eexists| |done|done|].
  - intros q qs Hq Hqs _. by apply (Hplain q qs).
  - rewrite lookup_empty. apply not_elem_of_nil.
Qed.

(** X12: a claim before the deal.  In a reachable world, take a session
    that has not started, with at least two players, none of them named
    like a member of [Object.prototype], and fewer than 8 half-suits
    claimed.  A [makeClaim] on it with a valid half-suit name, in which no
    card is assigned to such a name, awards nothing and finds no hand, yet
    advances [currentTurn]; building the first view then throws, so the only
    message sent is the generic error although the stored session has
    changed. *)
Theorem makeClaim_before_start ch (c suit : string)
    (assignments : list (string * list Card)) w g :
  reachable w → games w !! c = Some g → started g = false →
  is_Some (halfSuit suit) → 2 ≤ length (players g) →
  length (team1 (claimedSuits g)) + length (team2 (claimedSuits g)) < 8 →
  (∀ p, p ∈ players g → inherited p = None) →
  (∀ p cs, (p, cs) ∈ assignments → cs ≠ [] → inherited p = None) →
  let w' := handleMessage ch (MakeClaim c suit assignments) w in
  games w' !! c = Some (set_currentTurn (nextTurn g) g)
  ∧ hands g = ∅
  ∧ sent w' = sent w ++ [error "Failed to process request"].
Proof.
  intros Hw Hg Hst [sc Hs] Hn Htotal Hnames Hkeys w'.
  destruct (reachable_tidy w c g Hw Hg) as (Hnd & _ & Hlobby).
  specialize (Hlobby Hst).
  destruct (resolveClaim_no_hands g suit sc assignments Hlobby Hs Hkeys) as [lg Hr].
  destruct (players g) as [|p0 [|p1 ps]] eqn:Hps; simpl in Hn; try lia.
  assert (Hne : p1 ≠ p0).
  { apply NoDup_cons in Hnd as [Hp0 _]. intros ->. apply Hp0. by left. }
  assert (Hthrow : getPlayerView (set_currentTurn (nextTurn g) g) p0 = None).
  { unfold getPlayerView. simpl players. rewrite Hps.
    rewrite (viewHands_throws _ p0 _ ∅ p1); [done| |done| |].
    - right. by left.
    - simpl. by rewrite Hlobby, lookup_empty.
    - apply Hnames. right. by left. }
  assert (Hd : dispatch ch (MakeClaim c suit assignments) w
               = (storeGameState c (set_currentTurn (nextTurn g) g)
                    (storeGameState c g w), Threw)).
  { cbn [dispatch]. unfold makeClaim.
    rewrite (getGameState_session c w g Hg), (suitCardsLength_halfSuit _ _ Hs).
    unfold resolveClaim in Hr. rewrite Hr.
    rewrite (proj2 (Nat.leb_gt _ _) Htotal).
    simpl players. rewrite Hps. simpl. by rewrite Hthrow. }
  unfold w', handleMessage. rewrite Hd. simpl.
  by rewrite lookup_insert_eq.
Qed.

(** Alice and Bob in the lobby; a claim arrives. *)
Lemma makeClaim_before_start_witness :
  let w := run [(Table.ch, CreateGame "Alice");
                (Table.ch, JoinGame "ABC123" "Bob")] boot in
  let w' := handleMessage Table.ch
              (MakeClaim "ABC123" "low-hearts" [("Alice", Table.lowHearts)]) w in
  (currentTurn <$> games w !! "ABC123") = Some 0%Z
  ∧ games w' !! "ABC123"
    = Some (set_currentTurn 1 (Table.session w))
  ∧ sent w' = sent w ++ [error "Failed to process request"].
Proof.
  intros w w'.
  destruct (makeClaim_before_start Table.ch "ABC123" "low-hearts"
              [("Alice", Table.lowHearts)] w (Table.session w))
    as (Hg' & _ & Hsent).
  - apply run_reachable; [constructor|compute_done].
  - vm_compute. reflexivity.
  - vm_compute. reflexivity.
  - eexists. vm_compute. reflexivity.
  - compute_done.
  - compute_done.
  - assert (H : Forall (λ p, inherited p = None) (players (Table.session w)))
      by compute_done.
    rewrite Forall_forall in H. exact H.
  - intros p cs Hin _. apply list_elem_of_singleton in Hin as [= -> ->].
    vm_compute. reflexivity.
  - split; [vm_compute; reflexivity|]. split; [|exact Hsent].
    fold w' in Hg'. rewrite Hg'. vm_compute. reflexivity.
Defined.

(** X13: asking before the deal.  In a reachable world, [askForCard] on a
    session that has not started throws on the asker's missing hand: the
    world is unchanged except for the generic error reply. *)
Theorem askForCard_before_start ch (c target : string) (card : Card) w g :
  reachable w → games w !! c = Some g → started g = false →
  handleMessage ch (AskForCard c target card) w
  = send (error "Failed to process request") w.
Proof.
  intros Hw Hg Hst.
  destruct (reachable_tidy w c g Hw Hg) as (_ & _ & Hlobby).
  unfold handleMessage. simpl. unfold askForCard.
  by rewrite (getGameState_session c w g Hg), (Hlobby Hst), lookup_empty.
Qed.

(** In the lobby of the example table. *)
Lemma askForCard_before_start_witness :
  handleMessage Table.ch (AskForCard "ABC123" "Bob" "2♦") Table.seated
  = send (error "Failed to process request") Table.seated.
Proof.
  apply (askForCard_before_start Table.ch "ABC123" "Bob" "2♦" Table.seated
           (Table.session Table.seated)).
  - apply run_reachable; [constructor|compute_done].
  - vm_compute. reflexivity.
  - vm_compute. reflexivity.
Defined.

(** The store after a message is the store before, with at most the
    addressed session (or the new one) rewritten. *)
Lemma dispatch_games ch m w :
  games (dispatch ch m w).1 = games w
  ∨ ∃ k g', ((∃ name, m = CreateGame name ∧ k = newCode ch)
             ∨ (targetOf m = Some k ∧ is_Some (games w !! k)))
            ∧ games (dispatch ch m w).1 = <[k := g']> (games w).
Proof.
  destruct m as [name|c name|c random|c|c target card|c suit a|c name|ty];
    simpl; try (by left).
  - right. exists (newCode ch). eexists. split; [left; by exists name|done].
  - unfold joinGame.
    destruct (getGameState c w) as [g| |] eqn:Hgs; [|by left|by left].
    apply getGameState_found in Hgs as Hg.
    destruct (includes _ _); [by left|]. destruct (_ <=? _); [by left|].
    right. exists c. eexists. split; [right; by rewrite Hg|done].
  - unfold assignTeams.
    destruct (getGameState c w) as [g| |] eqn:Hgs; [|by left|by left].
    apply getGameState_found in Hgs as Hg.
    destruct (_ <? _); [by left|].
    right. exists c. eexists. split; [right; by rewrite Hg|done].
  - unfold startGame.
    destruct (getGameState c w) as [g| |] eqn:Hgs; [|by left|by left].
    apply getGameState_found in Hgs as Hg.
    destruct (started g); [by left|]. rewrite sendViews_games.
    right. exists c. eexists. split; [right; by rewrite Hg|done].
  - unfold askForCard.
    destruct (getGameState c w) as [g| |] eqn:Hgs; [|by left|by left].
    apply getGameState_found in Hgs as Hg.
    destruct (hands g !! _) as [ha|]; [|by left].
    destruct (includes card ha); [by left|].
    destruct (hands g !! target) as [ht|]; [|by left].
    destruct (includes card ht); rewrite sendViews_games;
      right; exists c; eexists; (split; [right; by rewrite Hg|done]).
  - unfold makeClaim.
    destruct (getGameState c w) as [g| |] eqn:Hgs; [|by left|by left].
    apply getGameState_found in Hgs as Hg.
    destruct (suitCardsLength suit) as [len|]; [|by left].
    destruct (validateClaim g suit len a) as [[g1 lg] cpl].
    destruct cpl.
    + destruct (_ <=? _).
      * right. exists c. eexists. split; [right; by rewrite Hg|done].
      * rewrite sendViews_games. simpl. rewrite insert_insert_eq.
        right. exists c. eexists. split; [right; by rewrite Hg|done].
    + right. exists c. eexists. split; [right; by rewrite Hg|done].
Qed.

(** X14: handlers are local.  Handling a message leaves every session
    other than the one it is addressed to (and, for [createGame], other than
    the one stored under the generated code) exactly as it was, and it never
    removes a session: whatever was stored under a code before is still
    followed by a session under that code. *)
Theorem handlers_are_local ch m w (c : string) :
  (targetOf m ≠ Some c → (∀ name, m = CreateGame name → c ≠ newCode ch) →
     games (handleMessage ch m w) !! c = games w !! c)
  ∧ (is_Some (games w !! c) → is_Some (games (handleMessage ch m w) !! c)).
Proof.
  rewrite handleMessage_games.
  destruct (dispatch_games ch m w) as [->|(k & g' & Hk & ->)]; [done|].
  split.
  - intros Htarget Hcode. rewrite lookup_insert_ne; [done|].
    intros ->. destruct Hk as [(name & Hm & Hnew)|[Ht _]].
    + by apply (Hcode name).
    + by apply Htarget.
  - intros Hsome. destruct (decide (k = c)) as [->|Hne].
    + rewrite lookup_insert_eq. by eexists.
    + by rewrite lookup_insert_ne.
Qed.

(** A second game beside the example table is not affected by a claim at
    the table, and the table survives it. *)
Lemma handlers_are_local_witness :
  let ch2 := {| newCode := "XYZ789"; now := 1; shuffledPlayers := [];
                shuffledDeck := createDeck |} in
  let w := run [(ch2, CreateGame "Zoe")] Table.dealt in
  let m := MakeClaim "ABC123" "low-hearts" [("Alice", Table.lowHearts)] in
  games (handleMessage Table.ch m w) !! "XYZ789" = games w !! "XYZ789"
  ∧ is_Some (games (handleMessage Table.ch m w) !! "ABC123").
Proof.
  intros ch2 w m. split.
  - apply (handlers_are_local Table.ch m w "XYZ789"); [compute_done|].
    intros name Hm. discriminate Hm.
  - apply (handlers_are_local Table.ch m w "ABC123").
    eexists. vm_compute. reflexivity.
Defined.

Lemma lookupSuit_in (table : list (string * list Card)) suit cards :
  lookupSuit suit table = Some cards → (suit, cards) ∈ table.
Proof.
  induction table as [|[n0 c0] rest IH]; simpl; [done|].
  case_decide as Hn.
  - intros [= <-]. subst. by left.
  - intros H. right. by apply IH.
Qed.

(** X15: the deck.  [createDeck] lists 48 cards without repetition; the
    eight half-suit names are distinct and each names six cards; and every
    card of the deck is in exactly one half-suit. *)
Theorem deck_is_partitioned :
  length createDeck = 48 ∧ NoDup createDeck
  ∧ NoDup (map fst getHalfSuits)
  ∧ Forall (λ entry, length entry.2 = 6
                     ∧ halfSuit entry.1 = Some entry.2) getHalfSuits
  ∧ ∀ card, card ∈ createDeck →
      ∃ suit cards, halfSuit suit = Some cards ∧ card ∈ cards
        ∧ ∀ suit' cards', halfSuit suit' = Some cards' → card ∈ cards' →
            suit' = suit.
Proof.
  split; [reflexivity|]. split; [exact NoDup_createDeck|].
  split; [compute_done|]. split; [compute_done|].
  assert (Hone : Forall (λ card,
            Exists (λ entry, card ∈ entry.2
                      ∧ Forall (λ entry', card ∈ entry'.2 → entry'.1 = entry.1)
                          getHalfSuits) getHalfSuits) createDeck)
    by compute_done.
  intros card Hcard. rewrite Forall_forall in Hone.
  destruct (proj1 (Exists_exists _ _) (Hone card Hcard))
    as ([suit cards] & Hin & Hc & Huniq). simpl in Hc, Huniq.
  assert (Hlookup : ∀ s cs, halfSuit s = Some cs → (s, cs) ∈ getHalfSuits)
    by (intros s cs; apply lookupSuit_in).
  assert (Hfound : ∀ s cs, (s, cs) ∈ getHalfSuits → halfSuit s = Some cs).
  { assert (Hall : Forall (λ entry, halfSuit entry.1 = Some entry.2)
                     getHalfSuits) by compute_done.
    rewrite Forall_forall in Hall. intros s cs Hs. by apply (Hall (s, cs)). }
  exists suit, cards. split; [by apply Hfound|]. split; [done|].
  intros suit' cards' Hs' Hc'. rewrite Forall_forall in Huniq.
  by apply (Huniq (suit', cards') (Hlookup _ _ Hs')).
Qed.

(** X19: the half-suit name is not validated.  For a name that is neither
    one of the eight half-suits nor found in [Object.prototype], [makeClaim]
    throws on [suitCards.length]: nothing changes and the answer is "Failed
    to process request".  For the name of a method of [Object.prototype]
    without parameters (toString, valueOf, toLocaleString), whose [length]
    is 0, a claim that assigns no card passes every check: the name is
    pushed on the claimed list of the claimer's team and no hand changes. *)
Theorem makeClaim_unknown_suit (c suit : string) w g :
  games w !! c = Some g → halfSuit suit = None →
  (inherited suit = None →
     ∀ assignments ch,
       let w' := handleMessage ch (MakeClaim c suit assignments) w in
       (makeClaim c suit assignments w).2 = Threw
       ∧ games w' = games w
       ∧ sent w' = sent w ++ [error "Failed to process request"])
  ∧ (inherited suit = Some (Method 0) →
     let claimerTeam := teamOf (teams g) (at_index (players g) (currentTurn g)) in
     ∃ g', games (makeClaim c suit [] w).1 !! c = Some g'
       ∧ claimedSuits g' = pushTeam claimerTeam suit (claimedSuits g)
       ∧ hands g' = hands g).
Proof.
  intros Hg Hs. split.
  - intros Hplain assignments ch.
    assert (Hm : makeClaim c suit assignments w = (w, Threw)).
    { unfold makeClaim, suitCardsLength.
      by rewrite (getGameState_session c w g Hg), Hs, Hplain. }
    split; [by rewrite Hm|]. unfold handleMessage. cbn [dispatch].
    by rewrite Hm.
  - intros Hmethod claimerTeam.
    assert (Hlen : suitCardsLength suit = Some (Some 0)).
    { unfold suitCardsLength. by rewrite Hs, Hmethod. }
    rewrite (makeClaim_validated c suit [] w g (Some 0)
               (set_hands (hands g)
                  (set_claimedSuits (pushTeam claimerTeam suit (claimedSuits g)) g))
               (keyOf (at_index (players g) (currentTurn g))
                  +:+ " successfully claimed " +:+ suit +:+ " for "
                  +:+ teamKey claimerTeam +:+ "!") Hg Hlen); [|done].
    eexists. split; [reflexivity|]. by destruct (8 <=? _).
Qed.

(** At the example table after the deal: a claim of a suit named clubs
    throws; an empty claim of toString gives team 1 a half-suit. *)
Lemma makeClaim_unknown_suit_witness :
  (makeClaim "ABC123" "clubs" [("Alice", Table.lowHearts)] Table.dealt).2 = Threw
  ∧ ∃ g', games (makeClaim "ABC123" "toString" [] Table.dealt).1 !! "ABC123"
          = Some g'
        ∧ claimedSuits g' = {| team1 := ["toString"]; team2 := [] |}.
Proof.
  assert (Hd : games Table.dealt !! "ABC123" = Some (Table.session Table.dealt))
    by table_session.
  split.
  - destruct (makeClaim_unknown_suit "ABC123" "clubs" Table.dealt
                (Table.session Table.dealt) Hd) as (Hthrow & _).
    { vm_compute; reflexivity. }
    refine (proj1 (Hthrow _ [("Alice", Table.lowHearts)] Table.ch)).
    vm_compute; reflexivity.
  - destruct (makeClaim_unknown_suit "ABC123" "toString" Table.dealt
                (Table.session Table.dealt) Hd) as (_ & Haward).
    { vm_compute; reflexivity. }
    destruct Haward as (g' & Hg' & Hcs & _); [vm_compute; reflexivity|].
    exists g'. split; [exact Hg'|]. rewrite Hcs. vm_compute. reflexivity.
Defined.

End Edges.

(** ** Sequences of messages *)

Section Sequences.

(** X16: a successful ask cannot be repeated.  After [askForCard] has moved
    a card from the target to the asker, the same request is refused with
    "Can't ask for a card you have" and changes nothing: the turn stayed
    with the asker, who now holds the card. *)
Theorem askForCard_twice (c target : string) (card : Card) w g
    (askerHand targetHand : list Card) :
  games w !! c = Some g →
  hands g !! keyOf (at_index (players g) (currentTurn g)) = Some askerHand →
  card ∉ askerHand →
  hands g !! target = Some targetHand → card ∈ targetHand →
  let w1 := (askForCard c target card w).1 in
  askForCard c target card w1
  = (send (error "Can't ask for a card you have") w1, Returned).
Proof.
  intros Hg Ha Hnot Ht Hhas w1.
  set (asker := keyOf (at_index (players g) (currentTurn g))) in *.
  assert (Hne : target ≠ asker) by (intros ->; congruence).
  assert (Hg1 : games w1 !! c
    = Some (set_hands
              (alter (λ h, h ++ [card]) asker
                 (<[target := filter (λ x, x ≠ card) targetHand]> (hands g))) g)).
  { unfold w1, askForCard, getGameState. rewrite Hg. cbv zeta. fold asker.
    rewrite Ha, (proj2 (includes_false _ _) Hnot), Ht,
      (proj2 (includes_true _ _) Hhas).
    rewrite sendViews_games. simpl. by rewrite lookup_insert_eq. }
  unfold askForCard at 1, getGameState. rewrite Hg1. cbv zeta. simpl.
  fold asker. rewrite lookup_alter_eq, lookup_insert_ne, Ha by done. simpl.
  assert (Hin : card ∈ askerHand ++ [card]).
  { apply elem_of_app. right. by left. }
  by rewrite (proj2 (includes_true _ _) Hin).
Qed.

(** Alice takes the 2 of diamonds from Bob and asks again. *)
Lemma askForCard_twice_witness :
  let w1 := (askForCard "ABC123" "Bob" "2♦" Table.dealt).1 in
  askForCard "ABC123" "Bob" "2♦" w1
  = (send (error "Can't ask for a card you have") w1, Returned).
Proof.
  apply (askForCard_twice "ABC123" "Bob" "2♦" Table.dealt
           (Table.session Table.dealt)
           (take 12 createDeck) (take 12 (drop 12 createDeck))).
  - vm_compute. reflexivity.
  - vm_compute. reflexivity.
  - compute_done.
  - vm_compute. reflexivity.
  - compute_done.
Defined.

(** What the per-player loop sends when every view can be built. *)
Lemma sendViews_exact mk g (ps : list string) w :
  NoDup ps → (∀ p, p ∈ ps → is_Some (getPlayerView g p)) →
  sent (sendViews mk g ps w).1
  = sent w ++ match playerId w with
              | Some pid =>
                  if decide (pid ∈ ps)
                  then match getPlayerView g pid with
                       | Some v => [mk v]
                       | None => []
                       end
                  else []
              | None => []
              end.
Proof.
  intros Hnd. revert w. induction Hnd as [|p ps Hp Hnd IH]; intros w Hall.
  { simpl. destruct (playerId w); by rewrite app_nil_r. }
  simpl. destruct (Hall p) as [v Hv]; [by left|]. rewrite Hv.
  rewrite IH by (intros q Hq; apply Hall; by right).
  rewrite sendToPlayer_playerId, sendToPlayer_sent, <- app_assoc. f_equal.
  destruct (playerId w) as [pid|]; [|by case_decide].
  destruct (decide (pid = p)) as [->|Hne].
  - rewrite decide_True by done. rewrite decide_False by done.
    rewrite decide_True by (by left). by rewrite Hv.
  - rewrite decide_False by congruence. simpl.
    destruct (decide (pid ∈ ps)) as [Hin|Hnin].
    + by rewrite decide_True by (by right).
    + rewrite decide_False; [done|].
      intros [->|Hin]%elem_of_cons; done.
Qed.

(** X17: only the caller hears of the start.  [startGame] on a lobby with
    distinct players sends just one message, [gameStarted] with the caller's
    own view, when the connection is bound to one of the players, and sends
    nothing at all otherwise; no other connection is written to. *)
Theorem startGame_tells_only_the_caller ch (c : string) w g :
  games w !! c = Some g → started g = false → NoDup (players g) →
  ∃ g', games (startGame ch c w).1 !! c = Some g'
    ∧ (∀ pid, playerId w = Some pid → pid ∈ players g →
         ∃ v, getPlayerView g' pid = Some v
              ∧ sent (startGame ch c w).1 = sent w ++ [gameStarted v])
    ∧ ((∀ pid, playerId w = Some pid → pid ∉ players g) →
         sent (startGame ch c w).1 = sent w).
Proof.
  intros Hg Hst Hnd. unfold startGame, getGameState. rewrite Hg, Hst.
  set (g' := set_started true _).
  assert (Hviews : ∀ p, p ∈ players g' → is_Some (getPlayerView g' p)).
  { intros viewer _. apply getPlayerView_is_Some.
    intros p [k Hk]%list_elem_of_lookup. simpl in Hk |- *.
    rewrite (deal_lookup _ _ 0 _ _ k p Hnd Hk). by eexists. }
  exists g'. rewrite sendViews_games. simpl games. rewrite lookup_insert_eq.
  split; [done|].
  rewrite (sendViews_exact gameStarted g' (players g')) by done.
  simpl playerId. simpl sent. split.
  - intros pid Hpid Hin. rewrite Hpid. rewrite decide_True by done.
    destruct (Hviews pid Hin) as [v Hv]. exists v. by rewrite Hv.
  - intros Hout. destruct (playerId w) as [pid|]; [|by rewrite app_nil_r].
    rewrite decide_False; [by rewrite app_nil_r|]. by apply Hout.
Qed.

(** Dave, the last to join, starts the game at the example table and is the
    only one told. *)
Lemma startGame_tells_only_the_caller_witness :
  let w' := (startGame Table.ch "ABC123" Table.seated).1 in
  playerId Table.seated = Some "Dave"
  ∧ ∃ g' v, games w' !! "ABC123" = Some g'
            ∧ getPlayerView g' "Dave" = Some v
            ∧ sent w' = sent Table.seated ++ [gameStarted v].
Proof.
  intros w'. split; [vm_compute; reflexivity|].
  destruct (startGame_tells_only_the_caller Table.ch "ABC123" Table.seated
              (Table.session Table.seated))
    as (g' & Hg' & Hin & _).
  - vm_compute. reflexivity.
  - vm_compute. reflexivity.
  - compute_done.
  - destruct (Hin "Dave") as (v & Hv & Hsent).
    + vm_compute. reflexivity.
    + compute_done.
    + exists g', v. split; [exact Hg'|]. split; [exact Hv|exact Hsent].
Defined.

Lemma sessionStep_started ch g m g' :
  sessionStep ch g m g' → started g = true → started g' = true.
Proof.
  destruct 1 as [| | | | |c suit a len g1 lg cpl Hr|c suit a len g1 lg cpl Hr];
    try done.
  - destruct (validateClaim_frame _ _ _ _ _ _ _ Hr) as (_ & Hst & _). congruence.
  - simpl. destruct (validateClaim_frame _ _ _ _ _ _ _ Hr) as (_ & Hst & _).
    congruence.
Qed.

(** X18: a started game stays started.  No message addressed to a started
    session puts it back in the lobby; the only way a started session stops
    being one is a [createGame] whose generated code is the session's code,
    which stores a new lobby over it. *)
Theorem started_is_permanent ch m w (c : string) g :
  games w !! c = Some g → started g = true →
  (∀ name, m = CreateGame name → c ≠ newCode ch) →
  ∃ g', games (handleMessage ch m w) !! c = Some g' ∧ started g' = true.
Proof.
  intros Hg Hst Hcode.
  destruct (dispatch_games ch m w) as [Heq|(k & g1 & Hk & Heq)].
  - exists g. by rewrite handleMessage_games, Heq.
  - destruct (games (handleMessage ch m w) !! c) as [g'|] eqn:Hg'.
    2:{ rewrite handleMessage_games, Heq in Hg'.
        destruct (decide (k = c)) as [->|Hne].
        - by rewrite lookup_insert_eq in Hg'.
        - rewrite lookup_insert_ne in Hg' by done. congruence. }
    exists g'. split; [done|].
    apply handleMessage_session in Hg'
      as [Hsame|[(name & Hm & Hc & _)|(g0 & Hg0 & _ & Hstep)]].
    + congruence.
    + by destruct (Hcode name Hm).
    + rewrite Hg in Hg0. injection Hg0 as <-.
      by apply (sessionStep_started ch g m g').
Qed.

(** At the example table after the deal: a claim leaves the game started,
    while creating a game whose code comes out as ABC123 again replaces it
    by a lobby. *)
Lemma started_is_permanent_witness :
  (∃ g', games (handleMessage Table.ch
                  (MakeClaim "ABC123" "low-hearts" [("Alice", Table.lowHearts)])
                  Table.dealt) !! "ABC123" = Some g'
         ∧ started g' = true)
  ∧ (started <$> games (handleMessage Table.ch (CreateGame "Zoe") Table.dealt)
                   !! "ABC123") = Some false.
Proof.
  split; [|vm_compute; reflexivity].
  apply (started_is_permanent Table.ch _ Table.dealt "ABC123"
           (Table.session Table.dealt)).
  - vm_compute. reflexivity.
  - vm_compute. reflexivity.
  - intros name Hm. discriminate Hm.
Defined.

End Sequences.
